(** * Llumnix global scheduler: instance registry and migration policies

    A shallow embedding of [llumnix/global_scheduler/global_scheduler.py]
    and [llumnix/global_scheduler/migration_scheduler.py].

    Python objects live in a store, addressed by reference, because the
    schedulers mutate [InstanceInfo] objects in place and share the
    registry dict with their sub-schedulers.  Loads are IEEE 754 binary64
    numbers (Python [float]), counters are unbounded integers. *)

From Stdlib Require Import Floats ZArith Lia.
From stdpp Require Import gmap strings list sorting.

(** ** Python exceptions *)

Inductive exn :=
| KeyError (key : string)
| AttributeError (attr : string)
| OtherError (msg : string).

Inductive result (A : Type) :=
| Ok (a : A)
| Raise (e : exn).
Arguments Ok {A} a.
Arguments Raise {A} e.

#[global] Instance result_ret : MRet result := fun A a => Ok a.
#[global] Instance result_bind : MBind result := fun A B k m =>
  match m with
  | Ok a => k a
  | Raise e => Raise e
  end.

Definition is_ok {A} (m : result A) : Prop := exists a, m = Ok a.

(** ** Floating point

    Loads are binary64 numbers; a load that is not a number compares
    false with everything. *)
Definition is_nan (x : float) : Prop := Prim2SF x = S754_nan.

(** ** Data model *)

(** Modelled from the spec: the [InstanceInfo] class (its module,
    [llumnix/instance_info.py], is imported by the schedulers but is not
    among the sources at hand).  The attributes are those of section 3 of
    the specification; the schedulers read and write them by these names. *)
Record InstanceInfo := mkInstanceInfo {
  instance_id : string;
  num_running_request : Z;
  num_waiting_request : Z;
  num_killed_request : Z;
  num_total_gpu_block : Z;
  num_free_gpu_block : Z;
  num_used_gpu_block : Z;
  num_block_first_waiting_request : Z;
  num_block_last_running_request : Z;
  num_batched_tokens : Z;
  instance_load_dispatch_scale : float;
  instance_load_migrate : float
}.

#[global] Instance InstanceInfo_inhabited : Inhabited InstanceInfo :=
  populate (mkInstanceInfo "" 0 0 0 0 0 0 0 0 0 0%float 0%float).

(** Attribute assignment [o.attr = v], one function per attribute that
    the schedulers assign. *)
Definition set_instance_id (v : string) (o : InstanceInfo) : InstanceInfo :=
  mkInstanceInfo v (num_running_request o) (num_waiting_request o)
    (num_killed_request o) (num_total_gpu_block o) (num_free_gpu_block o)
    (num_used_gpu_block o) (num_block_first_waiting_request o)
    (num_block_last_running_request o) (num_batched_tokens o)
    (instance_load_dispatch_scale o) (instance_load_migrate o).

Definition set_num_running_request (v : Z) (o : InstanceInfo) : InstanceInfo :=
  mkInstanceInfo (instance_id o) v (num_waiting_request o)
    (num_killed_request o) (num_total_gpu_block o) (num_free_gpu_block o)
    (num_used_gpu_block o) (num_block_first_waiting_request o)
    (num_block_last_running_request o) (num_batched_tokens o)
    (instance_load_dispatch_scale o) (instance_load_migrate o).

Definition set_num_free_gpu_block (v : Z) (o : InstanceInfo) : InstanceInfo :=
  mkInstanceInfo (instance_id o) (num_running_request o) (num_waiting_request o)
    (num_killed_request o) (num_total_gpu_block o) v
    (num_used_gpu_block o) (num_block_first_waiting_request o)
    (num_block_last_running_request o) (num_batched_tokens o)
    (instance_load_dispatch_scale o) (instance_load_migrate o).

Definition set_instance_load_dispatch_scale (v : float) (o : InstanceInfo)
  : InstanceInfo :=
  mkInstanceInfo (instance_id o) (num_running_request o) (num_waiting_request o)
    (num_killed_request o) (num_total_gpu_block o) (num_free_gpu_block o)
    (num_used_gpu_block o) (num_block_first_waiting_request o)
    (num_block_last_running_request o) (num_batched_tokens o)
    v (instance_load_migrate o).

Definition set_instance_load_migrate (v : float) (o : InstanceInfo)
  : InstanceInfo :=
  mkInstanceInfo (instance_id o) (num_running_request o) (num_waiting_request o)
    (num_killed_request o) (num_total_gpu_block o) (num_free_gpu_block o)
    (num_used_gpu_block o) (num_block_first_waiting_request o)
    (num_block_last_running_request o) (num_batched_tokens o)
    (instance_load_dispatch_scale o) v.

(** Modelled from the spec: the [InstanceLoadCalculator] class (also of
    [llumnix/instance_info.py]).  Section 4.1 leaves the formula open, so
    [compute_instance_load] is a field: a function of the object's current
    attribute values and of the action, ['dispatch'] or ['migrate']. *)
Record InstanceLoadCalculator := mkCalculator {
  load_metric : string;
  enable_prefill_migrate : bool;
  compute_instance_load : InstanceInfo -> string -> float
}.

(** ** The object store *)

(** A reference to an [InstanceInfo] object: its address in the store. *)
Definition ref := nat.

(** A Python dict from instance ids to [InstanceInfo] objects, in
    insertion order (which [values()] follows), keys pairwise distinct. *)
Definition dict := list (string * ref).

(** The only dict the schedulers ever hold is the one that
    [GlobalScheduler.__init__] creates; the sub-schedulers receive a
    reference to that same object. *)
Inductive DictRef := RegistryRef.

Record Store := mkStore {
  objects : list InstanceInfo;
  registry : dict
}.

Definition deref (w : Store) (r : ref) : InstanceInfo := objects w !!! r.

Definition deref_dict (w : Store) (d : DictRef) : dict :=
  match d with RegistryRef => registry w end.

(** A new object, placed after those already there. *)
Definition alloc (o : InstanceInfo) (w : Store) : ref * Store :=
  (length (objects w), mkStore (objects w ++ [o]) (registry w)).

(** [copy.deepcopy] of an [InstanceInfo]: its attributes are numbers and
    a string, so the copy is one new object with the same values. *)
Definition deepcopy (r : ref) (w : Store) : ref * Store :=
  alloc (deref w r) w.

(** In-place change of the object at [r]. *)
Definition setattr (r : ref) (f : InstanceInfo -> InstanceInfo) (w : Store)
  : Store :=
  mkStore (alter f r (objects w)) (registry w).

Definition set_registry (d : dict) (w : Store) : Store :=
  mkStore (objects w) d.

Definition valid_ref (w : Store) (r : ref) : Prop := r < length (objects w).

#[global] Instance valid_ref_dec w r : Decision (valid_ref w r) :=
  decide (r < length (objects w)).

(** *** dict operations *)

Fixpoint dict_get (k : string) (d : dict) : option ref :=
  match d with
  | [] => None
  | (k', v) :: d' => if decide (k = k') then Some v else dict_get k d'
  end.

(** [k in d] *)
Definition dict_contains (k : string) (d : dict) : bool :=
  match dict_get k d with Some _ => true | None => false end.

(** [d[k] = v]: an existing key keeps its position, a new key goes last. *)
Fixpoint dict_set (k : string) (v : ref) (d : dict) : dict :=
  match d with
  | [] => [(k, v)]
  | (k', v') :: d' =>
      if decide (k = k') then (k, v) :: d' else (k', v') :: dict_set k v d'
  end.

(** [del d[k]] *)
Fixpoint dict_del (k : string) (d : dict) : result dict :=
  match d with
  | [] => Raise (KeyError k)
  | (k', v') :: d' =>
      if decide (k = k') then Ok d'
      else d'' ← dict_del k d'; Ok ((k', v') :: d'')
  end.

Definition dict_keys (d : dict) : list string := d.*1.
Definition dict_values (d : dict) : list ref := d.*2.

(** *** set operations *)

Definition set_add (k : string) (s : gset string) : gset string := {[k]} ∪ s.

(** [s.remove(k)] raises [KeyError] when [k] is not a member. *)
Definition set_remove (k : string) (s : gset string) : result (gset string) :=
  if decide (k ∈ s) then Ok (s ∖ {[k]}) else Raise (KeyError k).

(** *** sorted

    [sorted(l, key=..., reverse=...)] is a stable sort that compares keys
    with [<] only; with [reverse] the list is reversed before and after,
    which keeps equal keys in their original order.  The model inserts
    each element before the first one that is not smaller; whenever [<]
    totally orders the keys present it returns the list that every stable
    sort returns. *)
Fixpoint insert_by {A} (key : A -> float) (x : A) (l : list A) : list A :=
  match l with
  | [] => [x]
  | y :: l' =>
      if PrimFloat.ltb (key y) (key x) then y :: insert_by key x l'
      else x :: y :: l'
  end.

Definition sorted {A} (l : list A) (key : A -> float) (reverse : bool)
  : list A :=
  if reverse then rev (foldr (insert_by key) [] (rev l))
  else foldr (insert_by key) [] l.

(** ** migration_scheduler.py *)

(** The three subclasses of [CheckMigratePolicy]. *)
Inductive PolicyClass := Balanced | PrefillConstrained | PrefillRelaxed.

(** A policy object: its class and the two attributes set by
    [CheckMigratePolicy.__init__]. *)
Record CheckMigratePolicy := mkPolicy {
  policy_class : PolicyClass;
  policy_migrate_out_load_threshold : float;
  policy_instance_load_calculator : InstanceLoadCalculator
}.

Definition _POLICY_REGISTRY : gmap string PolicyClass :=
  {[ "balanced" := Balanced;
     "prefill_constrained" := PrefillConstrained;
     "prefill_relaxed" := PrefillRelaxed ]}.

(** [CheckMigratePolicyFactory.get_policy]: subscripting the registry
    with an unknown name raises [KeyError]. *)
Definition get_policy (policy_name : string)
    (migrate_out_load_threshold : float)
    (instance_load_calculator : InstanceLoadCalculator)
  : result CheckMigratePolicy :=
  match _POLICY_REGISTRY !! policy_name with
  | Some cls =>
      Ok (mkPolicy cls migrate_out_load_threshold instance_load_calculator)
  | None => Raise (KeyError policy_name)
  end.

(** The filter of the migrate-in side, shared by the three policies. *)
Definition is_migrate_in (thr : float) (w : Store) (i : ref) : bool :=
  (num_killed_request (deref w i) =? 0)%Z
  && (instance_load_migrate (deref w i) <? thr)%float.

(** The filter of the migrate-out side of [Balanced] and
    [PrefillConstrained]. *)
Definition is_migrate_out (thr : float) (w : Store) (i : ref) : bool :=
  (0 <? num_killed_request (deref w i))%Z
  || (thr <? instance_load_migrate (deref w i))%float.

Definition left_instance_infos (thr : float) (w : Store)
    (sorted_instance_infos : list ref) : list ref :=
  List.filter (is_migrate_in thr w) sorted_instance_infos.

Definition right_instance_infos (thr : float) (w : Store)
    (sorted_instance_infos : list ref) : list ref :=
  List.filter (is_migrate_out thr w) (rev sorted_instance_infos).

(** [Balanced._compute_instance_load_after_migrate]: the load of a copy
    of the object, changed as one migration would change it. *)
Definition _compute_instance_load_after_migrate
    (calc : InstanceLoadCalculator) (instance_info : ref)
    (is_in : bool) (w : Store) : float * Store :=
  let '(instance_info_after_migrate, w) := deepcopy instance_info w in
  let num_block_last_running_request :=
    num_block_last_running_request (deref w instance_info_after_migrate) in
  let w :=
    if is_in then
      let w := setattr instance_info_after_migrate
                 (fun o => set_num_running_request (num_running_request o + 1) o) w in
      setattr instance_info_after_migrate
        (fun o => set_num_free_gpu_block
                    (num_free_gpu_block o - num_block_last_running_request) o) w
    else
      let w := setattr instance_info_after_migrate
                 (fun o => set_num_running_request (num_running_request o - 1) o) w in
      setattr instance_info_after_migrate
        (fun o => set_num_free_gpu_block
                    (num_free_gpu_block o + num_block_last_running_request) o) w in
  (compute_instance_load calc (deref w instance_info_after_migrate) "migrate", w).

(** One iteration of the loop of [Balanced.check_migrate], on the
    objects [left] (migrate in) and [right] (migrate out). *)
Definition Balanced_iteration (thr : float) (calc : InstanceLoadCalculator)
    (left right : ref) (st : list (string * string) * Store)
  : list (string * string) * Store :=
  let '(migrate_instance_pairs, w) := st in
  let load_diff_before_mig :=
    (instance_load_migrate (deref w right)
     - instance_load_migrate (deref w left))%float in
  let '(left_load_after_mig, w) :=
    _compute_instance_load_after_migrate calc left true w in
  let '(right_load_after_mig, w) :=
    _compute_instance_load_after_migrate calc right false w in
  if (thr <? left_load_after_mig)%float then (migrate_instance_pairs, w)
  else
    let load_diff_after_mig :=
      (right_load_after_mig - left_load_after_mig)%float in
    if ((0 <? load_diff_after_mig)%float
        && (load_diff_after_mig <? load_diff_before_mig)%float)
       || (instance_load_migrate (deref w left) =? neg_infinity)%float
    then (migrate_instance_pairs
            ++ [(instance_id (deref w right), instance_id (deref w left))], w)
    else (migrate_instance_pairs, w).

(** [for i in range(min(len(left), len(right)))]: the body runs on
    [left[i]] and [right[i]]. *)
Definition for_zipped {T} (left right : list ref)
    (body : ref -> ref -> T -> T) (init : T) : T :=
  fold_left (fun st i => body (left !!! i) (right !!! i) st)
    (seq 0 (min (length left) (length right))) init.

Definition Balanced_check_migrate (self : CheckMigratePolicy)
    (sorted_instance_infos : list ref) (w : Store)
  : list (string * string) * Store :=
  let thr := policy_migrate_out_load_threshold self in
  let left := left_instance_infos thr w sorted_instance_infos in
  let right := right_instance_infos thr w sorted_instance_infos in
  for_zipped left right
    (Balanced_iteration thr (policy_instance_load_calculator self)) ([], w).

Definition append_pair (left right : ref)
    (st : list (string * string) * Store) : list (string * string) * Store :=
  let '(migrate_instance_pairs, w) := st in
  (migrate_instance_pairs
     ++ [(instance_id (deref w right), instance_id (deref w left))], w).

Definition PrefillConstrained_check_migrate (self : CheckMigratePolicy)
    (sorted_instance_infos : list ref) (w : Store)
  : list (string * string) * Store :=
  let thr := policy_migrate_out_load_threshold self in
  let left := left_instance_infos thr w sorted_instance_infos in
  let right := right_instance_infos thr w sorted_instance_infos in
  for_zipped left right append_pair ([], w).

Definition PrefillRelaxed_check_migrate (self : CheckMigratePolicy)
    (sorted_instance_infos : list ref) (w : Store)
  : list (string * string) * Store :=
  let thr := policy_migrate_out_load_threshold self in
  let left := left_instance_infos thr w sorted_instance_infos in
  let right := rev sorted_instance_infos in
  for_zipped left right append_pair ([], w).

(** Method dispatch on the class of the policy object. *)
Definition policy_check_migrate (self : CheckMigratePolicy)
    (sorted_instance_infos : list ref) (w : Store)
  : list (string * string) * Store :=
  match policy_class self with
  | Balanced => Balanced_check_migrate self sorted_instance_infos w
  | PrefillConstrained =>
      PrefillConstrained_check_migrate self sorted_instance_infos w
  | PrefillRelaxed => PrefillRelaxed_check_migrate self sorted_instance_infos w
  end.

Record MigrationScheduler := mkMigrationScheduler {
  ms_migrate_out_load_threshold : float;
  ms_instance_load_calculator : InstanceLoadCalculator;
  ms_enable_prefill_migrate : bool;
  check_migrate_policy : CheckMigratePolicy;
  ms_num_instance : nat;
  ms_instance_id_set : gset string;
  ms_instance_info : option DictRef;
  sorted_instance_infos : option (list ref)
}.

Module MS.

(** [MigrationScheduler.__init__] *)
Definition init (check_migrate_policy : string)
    (migrate_out_load_threshold : float)
    (instance_load_calculator : InstanceLoadCalculator)
  : result MigrationScheduler :=
  let enable := enable_prefill_migrate instance_load_calculator in
  policy ←
    (if negb enable
     then get_policy "balanced" migrate_out_load_threshold
            instance_load_calculator
     else get_policy check_migrate_policy migrate_out_load_threshold
            instance_load_calculator);
  Ok (mkMigrationScheduler migrate_out_load_threshold instance_load_calculator
        enable policy 0 ∅ None None).

Definition update_instance_infos (instance_info : DictRef)
    (self : MigrationScheduler) : MigrationScheduler :=
  mkMigrationScheduler (ms_migrate_out_load_threshold self)
    (ms_instance_load_calculator self) (ms_enable_prefill_migrate self)
    (check_migrate_policy self) (ms_num_instance self)
    (ms_instance_id_set self) (Some instance_info)
    (sorted_instance_infos self).

Definition with_instance_id_set (s : gset string) (self : MigrationScheduler)
  : MigrationScheduler :=
  mkMigrationScheduler (ms_migrate_out_load_threshold self)
    (ms_instance_load_calculator self) (ms_enable_prefill_migrate self)
    (check_migrate_policy self) (size s) s (ms_instance_info self)
    (sorted_instance_infos self).

Definition add_instance (instance_id : string) (self : MigrationScheduler)
  : MigrationScheduler :=
  with_instance_id_set (set_add instance_id (ms_instance_id_set self)) self.

Definition remove_instance (instance_id : string) (self : MigrationScheduler)
  : result MigrationScheduler :=
  s ← set_remove instance_id (ms_instance_id_set self);
  Ok (with_instance_id_set s self).

(** [_sort_instance_infos]: [self.instance_info] is still [None] when no
    [update_instance_infos] came before. *)
Definition _sort_instance_infos (descending : bool) (w : Store)
    (self : MigrationScheduler) : result MigrationScheduler :=
  match ms_instance_info self with
  | None => Raise (AttributeError "values")
  | Some d =>
      let instance_infos := dict_values (deref_dict w d) in
      Ok (mkMigrationScheduler (ms_migrate_out_load_threshold self)
            (ms_instance_load_calculator self) (ms_enable_prefill_migrate self)
            (check_migrate_policy self) (ms_num_instance self)
            (ms_instance_id_set self) (ms_instance_info self)
            (Some (sorted instance_infos
                     (fun i => instance_load_migrate (deref w i)) descending)))
  end.

Definition check_migrate (w : Store) (self : MigrationScheduler)
  : result (list (string * string) * Store * MigrationScheduler) :=
  self ← _sort_instance_infos false w self;
  match sorted_instance_infos self with
  | None => Raise (AttributeError "sorted_instance_infos")
  | Some l =>
      let '(pairs, w) := policy_check_migrate (check_migrate_policy self) l w in
      Ok (pairs, w, self)
  end.

End MS.

(** ** global_scheduler.py *)

(** Modelled from the spec: [GlobalSchedulerConfig] (of [llumnix/config.py],
    not among the sources), with the options of section 6.1. *)
Record GlobalSchedulerConfig := mkConfig {
  cfg_load_metric : string;
  cfg_dispatch_policy : string;
  cfg_check_migrate_policy : string;
  cfg_scale_policy : string;
  cfg_migrate_out_load_threshold : float;
  cfg_scale_up_threshold : float;
  cfg_scale_down_threshold : float;
  cfg_enable_prefill_migrate : bool
}.

(** Modelled from the spec: the dispatch and scale sub-schedulers
    ([dispatch_scheduler.py] and [scale_scheduler.py] are not among the
    sources).  Section 4.5 describes them as holding a mirror of the
    membership and a reference to the last snapshot, and section 5 lists
    [dispatch] and [check_scale] as read-only on the registry: their
    methods are parameters that read the store and change only the
    sub-scheduler's own state.  The constructors and the two queries may
    raise (configuration error, empty fleet). *)
Class SubScheduler (S : Type) := {
  sub_update_instance_infos : DictRef -> S -> S;
  sub_add_instance : string -> S -> S;
  sub_remove_instance : string -> S -> S
}.

Class DispatchSchedulerOps (DS : Type) := {
  ds_sub :: SubScheduler DS;
  ds_init : string -> InstanceLoadCalculator -> result DS;
  ds_dispatch : Store -> DS -> result (string * DS)
}.

Class ScaleSchedulerOps (SS : Type) := {
  ss_sub :: SubScheduler SS;
  ss_init : float -> float -> string -> InstanceLoadCalculator -> result SS;
  ss_check_scale : Store -> SS -> result (Z * Z * SS);
  ss_get_empty_instance_info : SS -> InstanceInfo
}.

(** The argument of [scale_up] and [scale_down]: [Union[str, Iterable[str]]]. *)
Inductive InstanceIdArg :=
| Str (instance_id : string)
| Iter (instance_ids : list string).

Record GlobalScheduler (DS SS : Type) := mkGlobalScheduler {
  global_scheduler_config : GlobalSchedulerConfig;
  instance_load_calculator : InstanceLoadCalculator;
  dispatch_scheduler : DS;
  migrate_scheduler : MigrationScheduler;
  scale_scheduler : SS;
  num_instance : nat;
  instance_id_set : gset string;
  instance_info : DictRef
}.
Arguments mkGlobalScheduler {DS SS}.
Arguments global_scheduler_config {DS SS}.
Arguments instance_load_calculator {DS SS}.
Arguments dispatch_scheduler {DS SS}.
Arguments migrate_scheduler {DS SS}.
Arguments scale_scheduler {DS SS}.
Arguments num_instance {DS SS}.
Arguments instance_id_set {DS SS}.
Arguments instance_info {DS SS}.

Module GS.
Section Operations.

Context {DS SS : Type} `{!DispatchSchedulerOps DS} `{!ScaleSchedulerOps SS}.

(** The formula that [InstanceLoadCalculator.compute_instance_load]
    evaluates, given the calculator's two settings. *)
Variable load_formula : string -> bool -> InstanceInfo -> string -> float.

Abbreviation Self := (GlobalScheduler DS SS).

Definition with_schedulers (ds : DS) (ms : MigrationScheduler) (ss : SS)
    (self : Self) : Self :=
  mkGlobalScheduler (global_scheduler_config self)
    (instance_load_calculator self) ds ms ss
    (num_instance self) (instance_id_set self) (instance_info self).

Definition with_instance_id_set (s : gset string) (self : Self) : Self :=
  mkGlobalScheduler (global_scheduler_config self)
    (instance_load_calculator self) (dispatch_scheduler self)
    (migrate_scheduler self) (scale_scheduler self)
    (size s) s (instance_info self).

(** [GlobalScheduler.__init__]; the new, empty registry dict is placed in
    the store. *)
Definition init (global_scheduler_config : GlobalSchedulerConfig) (w : Store)
  : result (Store * Self) :=
  let lm := cfg_load_metric global_scheduler_config in
  let en := cfg_enable_prefill_migrate global_scheduler_config in
  let calc := mkCalculator lm en (load_formula lm en) in
  ds ← ds_init (cfg_dispatch_policy global_scheduler_config) calc;
  ms ← MS.init (cfg_check_migrate_policy global_scheduler_config)
         (cfg_migrate_out_load_threshold global_scheduler_config) calc;
  ss ← ss_init (cfg_scale_up_threshold global_scheduler_config)
         (cfg_scale_down_threshold global_scheduler_config)
         (cfg_scale_policy global_scheduler_config) calc;
  Ok (set_registry [] w,
      mkGlobalScheduler global_scheduler_config calc ds ms ss 0 ∅ RegistryRef).

(** The body of the loop of [update_instance_infos], on the object [info]
    (the loop variable [instance_info] of the source). *)
Definition update_instance_info (self : Self) (w : Store) (info : ref)
  : Store :=
  let calc := instance_load_calculator self in
  if dict_contains (instance_id (deref w info))
       (deref_dict w (instance_info self))
  then
    let w := setattr info
               (set_instance_load_dispatch_scale
                  (compute_instance_load calc (deref w info) "dispatch")) w in
    let w := setattr info
               (set_instance_load_migrate
                  (compute_instance_load calc (deref w info) "migrate")) w in
    set_registry
      (dict_set (instance_id (deref w info)) info
         (deref_dict w (instance_info self))) w
  else w.

Definition update_instance_infos (instance_infos : list ref) (w : Store)
    (self : Self) : Store :=
  fold_left (update_instance_info self) instance_infos w.

Definition dispatch (w : Store) (self : Self) : result (string * Self) :=
  let ds := sub_update_instance_infos (instance_info self)
              (dispatch_scheduler self) in
  '(instance_id, ds) ← ds_dispatch w ds;
  Ok (instance_id,
      with_schedulers ds (migrate_scheduler self) (scale_scheduler self) self).

Definition check_migrate (w : Store) (self : Self)
  : result (list (string * string) * Store * Self) :=
  let ms := MS.update_instance_infos (instance_info self)
              (migrate_scheduler self) in
  '(migrate_instance_pairs, w, ms) ← MS.check_migrate w ms;
  Ok (migrate_instance_pairs, w,
      with_schedulers (dispatch_scheduler self) ms (scale_scheduler self) self).

Definition check_scale (w : Store) (self : Self) : result (Z * Z * Self) :=
  let ss := sub_update_instance_infos (instance_info self)
              (scale_scheduler self) in
  '(scale_up_num, scale_down_num, ss) ← ss_check_scale w ss;
  Ok (scale_up_num, scale_down_num,
      with_schedulers (dispatch_scheduler self) (migrate_scheduler self) ss self).

Definition _get_empty_instance_info (self : Self) : InstanceInfo :=
  ss_get_empty_instance_info (scale_scheduler self).

Definition _add_instance (instance_id : string) (self : Self) : Self :=
  let self := with_instance_id_set
                (set_add instance_id (instance_id_set self)) self in
  let d := instance_info self in
  let ds := sub_add_instance instance_id
              (sub_update_instance_infos d (dispatch_scheduler self)) in
  let ms := MS.add_instance instance_id
              (MS.update_instance_infos d (migrate_scheduler self)) in
  let ss := sub_add_instance instance_id
              (sub_update_instance_infos d (scale_scheduler self)) in
  with_schedulers ds ms ss self.

Definition _remove_instance (instance_id : string) (self : Self)
  : result Self :=
  s ← set_remove instance_id (instance_id_set self);
  let self := with_instance_id_set s self in
  let d := instance_info self in
  let ds := sub_remove_instance instance_id
              (sub_update_instance_infos d (dispatch_scheduler self)) in
  ms ← MS.remove_instance instance_id
         (MS.update_instance_infos d (migrate_scheduler self));
  let ss := sub_remove_instance instance_id
              (sub_update_instance_infos d (scale_scheduler self)) in
  Ok (with_schedulers ds ms ss self).

(** [if isinstance(instance_id, str): instance_id = [instance_id,]] and
    then [list(instance_id)]. *)
Definition instance_ids_of (instance_id : InstanceIdArg) : list string :=
  match instance_id with
  | Str s => [s]
  | Iter l => l
  end.

(** The body of the loop of [scale_up]. *)
Definition scale_up_one (st : Store * Self) (ins_id : string) : Store * Self :=
  let '(w, self) := st in
  if negb (dict_contains ins_id (deref_dict w (instance_info self))) then
    let '(new_intance_info, w) := alloc (_get_empty_instance_info self) w in
    let w := setattr new_intance_info (set_instance_id ins_id) w in
    let w := set_registry
               (dict_set ins_id new_intance_info
                  (deref_dict w (instance_info self))) w in
    (w, _add_instance ins_id self)
  else (w, self).

Definition scale_up (instance_id : InstanceIdArg) (w : Store) (self : Self)
  : Store * Self :=
  fold_left scale_up_one (instance_ids_of instance_id) (w, self).

(** The body of the loop of [scale_down]. *)
Definition scale_down_one (st : result (Store * Self)) (ins_id : string)
  : result (Store * Self) :=
  '(w, self) ← st;
  if dict_contains ins_id (deref_dict w (instance_info self)) then
    d ← dict_del ins_id (deref_dict w (instance_info self));
    let w := set_registry d w in
    self ← _remove_instance ins_id self;
    Ok (w, self)
  else Ok (w, self).

Definition scale_down (instance_id : InstanceIdArg) (w : Store) (self : Self)
  : result (Store * Self) :=
  fold_left scale_down_one (instance_ids_of instance_id) (Ok (w, self)).

End Operations.
End GS.

(** ** entrypoints/llumnix_utils.py

    The functions of this module act on the outside world: they run
    commands, call the manager actor and sleep.  What the outside world
    answers is a parameter (the outcome of each command, of each call);
    what the function does is its list of events, in order, and how it
    ends.  Log messages are recorded without their text. *)

Module Utils.

Definition MAX_RESTARTS : nat := 30.
Definition RESTART_INTERVALS : float := 1%float.
Definition MAX_TASK_RETRIES : nat := 300.
Definition RETRIES_INTERVALS : float := 0x1.999999999999ap-4%float.

Inductive exception :=
| RayActorError
| CalledProcessError (stderr : string)
| UnboundLocalError (name : string)
| OtherException (e : string).

(** How a call ends: [return], an exception that leaves the function,
    or [sys.exit]. *)
Inductive ending (A : Type) :=
| Returned (a : A)
| Raised (e : exception)
| SysExit (code : Z).
Arguments Returned {A} a.
Arguments Raised {A} e.
Arguments SysExit {A} code.

(** The command lines that [launch_ray_cluster] and [get_ip_address]
    run; the port and the address stand for their formatted text. *)
Inductive command :=
| hostname_i
| ray_stop_force
| ray_start_head (port : Z)
| ray_start_address (head_node_ip : string) (port : Z).

Inductive event :=
| Run (c : command)
| RayCall (attempt : nat)
| LogInfo
| Print
| Sleep (seconds : float)
| RayInit (head_node_ip : string) (port : Z).

(** *** retry_manager_method_sync *)

(** What [ray.get] of the call made by [ray_call] does at one attempt. *)
Inductive call_outcome (A : Type) :=
| Gets (ret : A)
| RaisesRayActorError
| RaisesOther (e : string).
Arguments Gets {A} ret.
Arguments RaisesRayActorError {A}.
Arguments RaisesOther {A} e.

(** The loop over [range(MAX_TASK_RETRIES)], on the attempts still to
    come, and the [return ret] behind it. *)
Fixpoint retry_loop {A} (ray_call : nat -> call_outcome A)
    (attempts : list nat) : ending A * list event :=
  match attempts with
  | [] => (Raised (UnboundLocalError "ret"), [])
  | attempt :: attempts =>
      match ray_call attempt with
      | Gets ret => (Returned ret, [RayCall attempt])
      | RaisesRayActorError =>
          if attempt <? MAX_TASK_RETRIES - 1 then
            let '(e, t) := retry_loop ray_call attempts in
            (e, RayCall attempt :: LogInfo :: Sleep RETRIES_INTERVALS :: t)
          else (Raised RayActorError, [RayCall attempt; LogInfo])
      | RaisesOther e => (Raised (OtherException e), [RayCall attempt])
      end
  end.

Definition retry_manager_method_sync {A} (ray_call : nat -> call_outcome A)
  : ending A * list event :=
  retry_loop ray_call (seq 0 MAX_TASK_RETRIES).

(** *** launch_ray_cluster *)

(** What [subprocess.run(..., check=True)] does. *)
Inductive run_outcome :=
| Completed (stdout : string)
| RaisesCalledProcessError (stderr : string)
| RunRaisesOther (e : string).

(** The environment variables read, and what each command and
    [ray.init] do; [ray start --address] may answer differently at each
    attempt. *)
Record Environment := mkEnvironment {
  HEAD_NODE_IP : option string;
  HEAD_NODE : bool;
  run_hostname_i : run_outcome;
  run_ray_stop : run_outcome;
  run_ray_start_head : run_outcome;
  run_ray_start_address : nat -> run_outcome;
  ray_init_raises : option string
}.

(** [get_ip_address]: the address it returns is used in log messages
    only; [CalledProcessError] is not caught. *)
Definition get_ip_address (env : Environment) : ending string * list event :=
  match run_hostname_i env with
  | Completed stdout => (Returned stdout, [Run hostname_i])
  | RaisesCalledProcessError stderr =>
      (Raised (CalledProcessError stderr), [Run hostname_i])
  | RunRaisesOther e => (Raised (OtherException e), [Run hostname_i])
  end.

(** The loop over [range(MAX_RESTARTS)] of a node that is not the head;
    it yields [result], if it was assigned. *)
Fixpoint ray_start_loop (env : Environment) (head_node_ip : string)
    (port : Z) (attempts : list nat)
  : ending (option string) * list event :=
  match attempts with
  | [] => (Returned None, [])
  | attempt :: attempts =>
      let run := Run (ray_start_address head_node_ip port) in
      match run_ray_start_address env attempt with
      | Completed stdout => (Returned (Some stdout), [run])
      | RaisesCalledProcessError stderr =>
          if attempt <? MAX_RESTARTS then
            let '(e, t) := ray_start_loop env head_node_ip port attempts in
            (e, run :: Print :: Sleep RESTART_INTERVALS :: t)
          else (SysExit 1, [run; LogInfo])
      | RunRaisesOther e => (Raised (OtherException e), [run])
      end
  end.

(** The end of [launch_ray_cluster]: the message that reads
    [result.stdout], then [ray.init]. *)
Definition log_and_init (env : Environment) (head_node_ip : string) (port : Z)
    (result : option string) : ending unit * list event :=
  match result with
  | None => (Raised (UnboundLocalError "result"), [])
  | Some _ =>
      match ray_init_raises env with
      | Some e => (Raised (OtherException e), [LogInfo; RayInit head_node_ip port])
      | None => (Returned tt, [LogInfo; RayInit head_node_ip port])
      end
  end.

Definition launch_ray_cluster (env : Environment) (ray_cluster_port : Z)
  : ending unit * list event :=
  let head_node_ip := HEAD_NODE_IP env in
  match get_ip_address env with
  | (Raised e, t0) => (Raised e, t0)
  | (SysExit c, t0) => (SysExit c, t0)
  | (Returned node_ip_address, t0) =>
      match run_ray_stop env with
      | RunRaisesOther e => (Raised (OtherException e), t0 ++ [Run ray_stop_force])
      | RaisesCalledProcessError _ =>
          (SysExit 1, t0 ++ [Run ray_stop_force; LogInfo])
      | Completed _ =>
          let t1 := t0 ++ [Run ray_stop_force] in
          match head_node_ip with
          | None => (SysExit 1, t1 ++ [LogInfo])
          | Some head_node_ip =>
              if HEAD_NODE env then
                let run := Run (ray_start_head ray_cluster_port) in
                match run_ray_start_head env with
                | RunRaisesOther e => (Raised (OtherException e), t1 ++ [run])
                | RaisesCalledProcessError _ => (SysExit 1, t1 ++ [run; LogInfo])
                | Completed stdout =>
                    let '(e, t) := log_and_init env head_node_ip
                                     ray_cluster_port (Some stdout) in
                    (e, t1 ++ run :: t)
                end
              else
                match ray_start_loop env head_node_ip ray_cluster_port
                        (seq 0 MAX_RESTARTS) with
                | (Raised e, t) => (Raised e, t1 ++ t)
                | (SysExit c, t) => (SysExit c, t1 ++ t)
                | (Returned result, t) =>
                    let '(e, t') := log_and_init env head_node_ip
                                      ray_cluster_port result in
                    (e, t1 ++ t ++ t')
                end
          end
      end
  end.

(** *** is_gpu_available *)

(** What [subprocess.check_output(['nvidia-smi'])] does. *)
Inductive check_output_outcome :=
| Output (stdout : string)
| CheckRaisesCalledProcessError
| CheckRaisesFileNotFoundError
| CheckRaisesOther (e : string).

Definition is_gpu_available (nvidia_smi : check_output_outcome) : ending bool :=
  match nvidia_smi with
  | Output _ => Returned true
  | CheckRaisesCalledProcessError | CheckRaisesFileNotFoundError =>
      Returned false
  | CheckRaisesOther e => Raised (OtherException e)
  end.

(** *** Notions for the statements about this module *)

(** The events of the attempts [a], ..., [a + n - 1] of
    [retry_manager_method_sync] when each one ends in [RayActorError]
    and another attempt follows. *)
Definition unavailable (a n : nat) : list event :=
  concat (map (fun i => [RayCall i; LogInfo; Sleep RETRIES_INTERVALS]) (seq a n)).

(** How [retry_manager_method_sync] ends on an attempt that does not
    raise [RayActorError]. *)
Definition ending_of {A} (o : call_outcome A) : ending A :=
  match o with
  | Gets ret => Returned ret
  | RaisesRayActorError => Raised RayActorError
  | RaisesOther e => Raised (OtherException e)
  end.

Definition is_ray_call (e : event) : bool :=
  match e with RayCall _ => true | _ => false end.

Definition is_sleep (e : event) : bool :=
  match e with Sleep _ => true | _ => false end.

(** [subprocess.run] raised [CalledProcessError]. *)
Definition fails (o : run_outcome) : Prop :=
  match o with RaisesCalledProcessError _ => True | _ => False end.

(** The events of [n] attempts of [ray start --address] that each end
    in [CalledProcessError]. *)
Definition stalled (head_node_ip : string) (port : Z) (n : nat) : list event :=
  concat (replicate n [Run (ray_start_address head_node_ip port); Print;
                       Sleep RESTART_INTERVALS]).

End Utils.

(** ** What the operations compute, on attribute values *)

(** The attributes of the copy that [_compute_instance_load_after_migrate]
    hands to the calculator. *)
Definition after_migrate (is_in : bool) (o : InstanceInfo) : InstanceInfo :=
  if is_in then
    set_num_free_gpu_block
      (num_free_gpu_block o - num_block_last_running_request o)
      (set_num_running_request (num_running_request o + 1) o)
  else
    set_num_free_gpu_block
      (num_free_gpu_block o + num_block_last_running_request o)
      (set_num_running_request (num_running_request o - 1) o).

Definition load_after_migrate (calc : InstanceLoadCalculator) (is_in : bool)
    (o : InstanceInfo) : float :=
  compute_instance_load calc (after_migrate is_in o) "migrate".

(** The acceptance test of one iteration of [Balanced.check_migrate], on
    the attribute values of the two objects. *)
Definition Balanced_accepts (thr : float) (calc : InstanceLoadCalculator)
    (l r : InstanceInfo) : bool :=
  let left_load_after_mig := load_after_migrate calc true l in
  let right_load_after_mig := load_after_migrate calc false r in
  let load_diff_before_mig :=
    (instance_load_migrate r - instance_load_migrate l)%float in
  let load_diff_after_mig :=
    (right_load_after_mig - left_load_after_mig)%float in
  negb (thr <? left_load_after_mig)%float
  && (((0 <? load_diff_after_mig)%float
       && (load_diff_after_mig <? load_diff_before_mig)%float)
      || (instance_load_migrate l =? neg_infinity)%float).

(** The two assignments of [update_instance_infos], in their order: the
    second load is computed on the object that already carries the first. *)
Definition refresh_loads (calc : InstanceLoadCalculator) (o : InstanceInfo)
  : InstanceInfo :=
  let o := set_instance_load_dispatch_scale
             (compute_instance_load calc o "dispatch") o in
  set_instance_load_migrate (compute_instance_load calc o "migrate") o.

(** ** Well-formed registries and reachable states *)

(** Every entry of the registry refers to an object of the store that
    carries the entry's key as its [instance_id], and the keys are
    pairwise distinct (as in any dict). *)
Definition registry_ok (w : Store) : Prop :=
  NoDup (dict_keys (registry w))
  /\ forall k r, (k, r) ∈ registry w ->
       valid_ref w r /\ instance_id (deref w r) = k.

Section Reachable.

Context {DS SS : Type} `{!DispatchSchedulerOps DS} `{!ScaleSchedulerOps SS}.
Variable load_formula : string -> bool -> InstanceInfo -> string -> float.

(** The invariant of the scheduler state. *)
Definition GS_inv (w : Store) (gs : GlobalScheduler DS SS) : Prop :=
  registry_ok w
  /\ instance_id_set gs = list_to_set (dict_keys (registry w))
  /\ num_instance gs = size (instance_id_set gs)
  /\ ms_instance_id_set (migrate_scheduler gs) = instance_id_set gs.

(** The states that the public operations produce from a new scheduler.
    [InstanceInfo] objects of heartbeats are made by the caller
    ([reach_heartbeat_object]) and handed over by reference. *)
Inductive reachable : Store -> GlobalScheduler DS SS -> Prop :=
| reach_init cfg w0 w gs :
    GS.init load_formula cfg w0 = Ok (w, gs) -> reachable w gs
| reach_heartbeat_object w gs o :
    reachable w gs -> reachable (alloc o w).2 gs
| reach_update_instance_infos w gs batch :
    reachable w gs -> Forall (valid_ref w) batch ->
    reachable (GS.update_instance_infos batch w gs) gs
| reach_dispatch w gs id gs' :
    reachable w gs -> GS.dispatch w gs = Ok (id, gs') -> reachable w gs'
| reach_check_migrate w gs pairs w' gs' :
    reachable w gs -> GS.check_migrate w gs = Ok (pairs, w', gs') ->
    reachable w' gs'
| reach_check_scale w gs up down gs' :
    reachable w gs -> GS.check_scale w gs = Ok (up, down, gs') ->
    reachable w gs'
| reach_scale_up w gs ids w' gs' :
    reachable w gs -> GS.scale_up ids w gs = (w', gs') -> reachable w' gs'
| reach_scale_down w gs ids w' gs' :
    reachable w gs -> GS.scale_down ids w gs = Ok (w', gs') -> reachable w' gs'.

End Reachable.

(** ** Notions for the statements *)

(** [w'] has the objects of [w] at the same addresses, possibly more
    behind them, and the same registry. *)
Definition extends (w w' : Store) : Prop :=
  registry w' = registry w /\ exists extra, objects w' = objects w ++ extra.

(** The pair that an iteration on [(left, right)] appends: source first. *)
Definition pair_ids (w : Store) (lr : ref * ref) : string * string :=
  (instance_id (deref w lr.2), instance_id (deref w lr.1)).

(** The acceptance test on the objects of a zipped pair. *)
Definition accepted (thr : float) (calc : InstanceLoadCalculator) (w : Store)
    (lr : ref * ref) : bool :=
  Balanced_accepts thr calc (deref w lr.1) (deref w lr.2).

(** The registry's objects in ascending order of [instance_load_migrate],
    as [_sort_instance_infos(descending=False)] leaves them. *)
Definition sorted_registry (w : Store) : list ref :=
  sorted (dict_values (registry w))
    (fun i => instance_load_migrate (deref w i)) false.

(** The zipped migrate-in and migrate-out lists of a policy class. *)
Definition zipped (cls : PolicyClass) (thr : float) (w : Store) (l : list ref)
  : list (ref * ref) :=
  match cls with
  | PrefillRelaxed => combine (left_instance_infos thr w l) (rev l)
  | _ => combine (left_instance_infos thr w l) (right_instance_infos thr w l)
  end.

(** The pairs that a policy returns: every zipped pair, or under
    [Balanced] those that pass the acceptance test. *)
Definition emitted (p : CheckMigratePolicy) (w : Store) (l : list ref)
  : list (ref * ref) :=
  let thr := policy_migrate_out_load_threshold p in
  match policy_class p with
  | Balanced =>
      List.filter (accepted thr (policy_instance_load_calculator p) w)
        (zipped Balanced thr w l)
  | cls => zipped cls thr w l
  end.

(** The load of the object at [x] is at most that of the object at [y]. *)
Definition load_le (w : Store) (x y : ref) : Prop :=
  (instance_load_migrate (deref w x)
   <=? instance_load_migrate (deref w y))%float = true.

(** The policy object of the scheduler. *)
Definition policy_of {DS SS} (gs : GlobalScheduler DS SS) : CheckMigratePolicy :=
  check_migrate_policy (migrate_scheduler gs).

(** A new [MigrationScheduler], handed the registry and asked for the
    pairs. *)
Definition check_migrate_of (name : string) (thr : float)
    (calc : InstanceLoadCalculator) (w : Store)
  : result (list (string * string) * Store) :=
  ms ← MS.init name thr calc;
  '(pairs, w', _) ← MS.check_migrate w (MS.update_instance_infos RegistryRef ms);
  Ok (pairs, w').

(** ** A small fleet to run the model on *)

Module Fleet.

(** A sub-scheduler that only mirrors the membership and keeps the
    reference to the registry (section 4.5 of the specification). *)
Record Mirror := mkMirror {
  mirror_ids : gset string;
  mirror_snapshot : option DictRef
}.

#[global] Instance Mirror_sub : SubScheduler Mirror := {|
  sub_update_instance_infos d m := mkMirror (mirror_ids m) (Some d);
  sub_add_instance k m := mkMirror ({[k]} ∪ mirror_ids m) (mirror_snapshot m);
  sub_remove_instance k m := mkMirror (mirror_ids m ∖ {[k]}) (mirror_snapshot m)
|}.

(** Dispatch to the first registered instance; an empty fleet is an error. *)
#[global] Instance Mirror_dispatch : DispatchSchedulerOps Mirror := {|
  ds_init _ _ := Ok (mkMirror ∅ None);
  ds_dispatch w m :=
    match registry w with
    | [] => Raise (OtherError "empty fleet")
    | (k, _) :: _ => Ok (k, m)
    end
|}.

(** The empty [InstanceInfo] of section 4.4: counters at zero and both
    loads at minus infinity.  [check_scale] never asks for a change. *)
Definition empty_instance_info : InstanceInfo :=
  mkInstanceInfo "" 0 0 0 0 0 0 0 0 0 neg_infinity neg_infinity.

#[global] Instance Mirror_scale : ScaleSchedulerOps Mirror := {|
  ss_init up down _ _ :=
    if (up <? down)%float then Raise (OtherError "thresholds")
    else Ok (mkMirror ∅ None);
  ss_check_scale w m := Ok (0%Z, 0%Z, m);
  ss_get_empty_instance_info _ := empty_instance_info
|}.

Definition float_of_Z (z : Z) : float :=
  match z with
  | Z0 => 0%float
  | Zpos p => PrimFloat.of_uint63 (Uint63.of_Z (Zpos p))
  | Zneg p => (- PrimFloat.of_uint63 (Uint63.of_Z (Zpos p)))%float
  end.

(** A load in the manner of [remaining_steps]: minus the free blocks per
    request, and minus infinity when the instance has no request. *)
Definition remaining_steps (lm : string) (en : bool) (o : InstanceInfo)
    (action : string) : float :=
  let num_requests :=
    if String.eqb action "migrate" then num_running_request o
    else (num_running_request o + num_waiting_request o)%Z in
  if (num_requests =? 0)%Z then neg_infinity
  else (- (float_of_Z (num_free_gpu_block o) / float_of_Z num_requests))%float.

Definition config (policy : string) (enable : bool) : GlobalSchedulerConfig :=
  mkConfig "remaining_steps" "load" policy "max_load" (-3)%float
    10%float (-100)%float enable.

Definition empty_store : Store := mkStore [] [].

(** A heartbeat object of instance [id] with the given counters. *)
Definition heartbeat (id : string) (running killed free last : Z)
  : InstanceInfo :=
  mkInstanceInfo id running 0 killed 100 free (100 - free) 0 last 0
    0%float 0%float.

Definition policy_name (cls : PolicyClass) : string :=
  match cls with
  | Balanced => "balanced"
  | PrefillConstrained => "prefill_constrained"
  | PrefillRelaxed => "prefill_relaxed"
  end.

Definition calculator (enable : bool) : InstanceLoadCalculator :=
  mkCalculator "remaining_steps" enable
    (remaining_steps "remaining_steps" enable).

(** The scheduler that [GlobalScheduler.__init__] returns for [config]. *)
Definition new_scheduler (cls : PolicyClass) (name : string) (enable : bool)
  : GlobalScheduler Mirror Mirror :=
  mkGlobalScheduler (config name enable) (calculator enable)
    (mkMirror ∅ None)
    (mkMigrationScheduler (-3)%float (calculator enable) enable
       (mkPolicy cls (-3)%float (calculator enable)) 0 ∅ None None)
    (mkMirror ∅ None) 0 ∅ RegistryRef.

Definition scheduler_of (cls : PolicyClass) : GlobalScheduler Mirror Mirror :=
  new_scheduler cls (policy_name cls) true.

(** One instance, just scaled up: no heartbeat yet. *)
Definition fresh_instance (cls : PolicyClass)
  : Store * GlobalScheduler Mirror Mirror :=
  GS.scale_up (Str "a") empty_store (scheduler_of cls).

(** Instances [hot] (load -1, above the threshold -3) and [cold]
    (load -40), each after one heartbeat. *)
Definition hot_and_cold (cls : PolicyClass)
  : Store * GlobalScheduler Mirror Mirror :=
  let st := GS.scale_up (Iter ["hot"; "cold"]) empty_store (scheduler_of cls) in
  let h := alloc (heartbeat "hot" 10 0 10 2) st.1 in
  let c := alloc (heartbeat "cold" 2 0 80 2) h.2 in
  (GS.update_instance_infos [h.1; c.1] c.2 st.2, st.2).

(** Instance [hot] after a heartbeat and instance [new] without one: the
    load of [new] is minus infinity, and with one more request and its
    zero free blocks its load would be -0, above the threshold. *)
Definition hot_and_new (cls : PolicyClass)
  : Store * GlobalScheduler Mirror Mirror :=
  let st := GS.scale_up (Iter ["hot"; "new"]) empty_store (scheduler_of cls) in
  let h := alloc (heartbeat "hot" 10 0 10 2) st.1 in
  (GS.update_instance_infos [h.1] h.2 st.2, st.2).

(** Instance [a] and two heartbeat objects of [a] (at addresses 1 and 2),
    with 1 and with 5 running requests, not yet handed over. *)
Definition two_heartbeats : Store * GlobalScheduler Mirror Mirror :=
  let st := GS.scale_up (Str "a") empty_store (scheduler_of Balanced) in
  let h1 := alloc (heartbeat "a" 1 0 50 2) st.1 in
  let h2 := alloc (heartbeat "a" 5 0 50 2) h1.2 in
  (h2.2, st.2).

(** Four instances after one heartbeat each: [hot] (load -1) and [warm]
    (-2) above the threshold -3, [cool] (-10) and [cold] (-40) below. *)
Definition four_instances (cls : PolicyClass)
  : Store * GlobalScheduler Mirror Mirror :=
  let st := GS.scale_up (Iter ["hot"; "warm"; "cool"; "cold"]) empty_store
              (scheduler_of cls) in
  let h := alloc (heartbeat "hot" 10 0 10 2) st.1 in
  let m := alloc (heartbeat "warm" 10 0 20 2) h.2 in
  let c := alloc (heartbeat "cool" 2 0 20 2) m.2 in
  let d := alloc (heartbeat "cold" 2 0 80 2) c.2 in
  (GS.update_instance_infos [h.1; m.1; c.1; d.1] d.2 st.2, st.2).

(** Instance [a], registered, and a heartbeat object (at address 1) of an
    instance [ghost] that is not. *)
Definition unknown_heartbeat : Store * GlobalScheduler Mirror Mirror :=
  let st := GS.scale_up (Str "a") empty_store (scheduler_of Balanced) in
  ((alloc (heartbeat "ghost" 3 0 50 2) st.1).2, st.2).

(** A manager that is unavailable at the first two calls and then
    answers 7, and one that stays unavailable. *)
Definition answers_third_call (attempt : nat) : Utils.call_outcome Z :=
  if attempt <? 2 then Utils.RaisesRayActorError else Utils.Gets 7%Z.

Definition never_answers (attempt : nat) : Utils.call_outcome Z :=
  Utils.RaisesRayActorError.

(** [ray start --address] while the head node is down, and when it comes
    up before the third attempt. *)
Definition head_down (attempt : nat) : Utils.run_outcome :=
  Utils.RaisesCalledProcessError "connection refused".

Definition head_up_at_third (attempt : nat) : Utils.run_outcome :=
  if attempt <? 2 then Utils.RaisesCalledProcessError "connection refused"
  else Utils.Completed "started".

(** A node that is not the head, with [HEAD_NODE_IP] set. *)
Definition worker_node (start : nat -> Utils.run_outcome) : Utils.Environment :=
  Utils.mkEnvironment (Some "10.0.0.1") false (Utils.Completed "10.0.0.2")
    (Utils.Completed "stopped") (Utils.Completed "started") start None.

(** The head node, when its [ray start --head] fails. *)
Definition head_node_port_taken : Utils.Environment :=
  Utils.mkEnvironment (Some "10.0.0.1") true (Utils.Completed "10.0.0.1")
    (Utils.Completed "stopped") (Utils.RaisesCalledProcessError "port in use")
    head_down None.

End Fleet.

(** * Properties *)

(** ** Floating point comparisons

    The few facts about binary64 comparison and subtraction that the
    policies rely on, derived from the specification of the primitive
    operations. *)

Module F.

Lemma SFcompare_antisym f1 f2 :
  SFcompare f2 f1 = option_map CompOpp (SFcompare f1 f2).
Proof.
  destruct f1 as [s1| s1 | |s1 m1 e1], f2 as [s2|s2| |s2 m2 e2]; simpl;
    try reflexivity;
    try (destruct s1; reflexivity); try (destruct s2; reflexivity);
    try (destruct s1, s2; reflexivity).
  f_equal.
  rewrite (Z.compare_antisym e2 e1).
  change (PosDef.Pos.compare_cont Eq m2 m1) with (Pos.compare m2 m1).
  change (PosDef.Pos.compare_cont Eq m1 m2) with (Pos.compare m1 m2).
  rewrite (Pos.compare_antisym m2 m1).
  destruct s1, s2; simpl; try reflexivity;
    destruct (e2 ?= e1)%Z; simpl; try reflexivity;
    destruct (m2 ?= m1)%positive; reflexivity.
Qed.

Lemma ltb_not_nan x y : PrimFloat.ltb x y = true -> ~ is_nan x /\ ~ is_nan y.
Proof.
  rewrite ltb_spec. unfold is_nan, SFltb.
  destruct (Prim2SF x), (Prim2SF y); simpl; intros H; split; congruence.
Qed.

Lemma sub_nan_r x y : is_nan y -> is_nan (PrimFloat.sub x y).
Proof.
  unfold is_nan. intros Hy. rewrite sub_spec, Hy.
  unfold SF64sub. destruct (Prim2SF x) as [ | [|] | | ]; reflexivity.
Qed.

Lemma sub_nan_l x y : is_nan x -> is_nan (PrimFloat.sub x y).
Proof.
  unfold is_nan. intros Hx. rewrite sub_spec, Hx. reflexivity.
Qed.

(** On numbers (no NaN on either side), "not greater" is "at most". *)
Lemma not_gt_le x y :
  ~ is_nan x -> ~ is_nan y ->
  PrimFloat.ltb y x = false -> PrimFloat.leb x y = true.
Proof.
  rewrite ltb_spec, leb_spec. unfold is_nan, SFltb, SFleb.
  intros Hx Hy. rewrite (SFcompare_antisym (Prim2SF x) (Prim2SF y)).
  destruct (SFcompare (Prim2SF x) (Prim2SF y)) as [[ | | ]|] eqn:E; simpl;
    try congruence.
  destruct (Prim2SF x), (Prim2SF y); simpl in E; congruence.
Qed.

Lemma ltb_asym x y :
  PrimFloat.ltb x y = true -> PrimFloat.ltb y x = false.
Proof.
  rewrite !ltb_spec. unfold SFltb.
  rewrite (SFcompare_antisym (Prim2SF x) (Prim2SF y)).
  destruct (SFcompare (Prim2SF x) (Prim2SF y)) as [[ | | ]|]; simpl; congruence.
Qed.

End F.

(** ** The store *)

Lemma extends_refl w : extends w w.
Proof. split; [reflexivity | exists []; by rewrite app_nil_r]. Qed.

Lemma extends_trans w1 w2 w3 : extends w1 w2 -> extends w2 w3 -> extends w1 w3.
Proof.
  intros [R1 [e1 O1]] [R2 [e2 O2]]. split; [congruence|].
  exists (e1 ++ e2). by rewrite O2, O1, app_assoc.
Qed.

Lemma extends_deref w w' r : extends w w' -> valid_ref w r -> deref w' r = deref w r.
Proof.
  intros [_ [extra O]] V. unfold deref. rewrite O. by apply lookup_total_app_l.
Qed.

Lemma extends_valid w w' r : extends w w' -> valid_ref w r -> valid_ref w' r.
Proof.
  intros [_ [extra O]]. unfold valid_ref. rewrite O, length_app. lia.
Qed.

Lemma alloc_extends o w : extends w (alloc o w).2.
Proof. split; [reflexivity | by exists [o]]. Qed.

Lemma deref_new l o reg : deref (mkStore (l ++ [o]) reg) (length l) = o.
Proof. unfold deref; simpl. by apply list_lookup_total_middle. Qed.

Lemma setattr_new f l o reg :
  setattr (length l) f (mkStore (l ++ [o]) reg) = mkStore (l ++ [f o]) reg.
Proof.
  unfold setattr; simpl. f_equal. by rewrite alter_app_r_alt, Nat.sub_diag.
Qed.

Lemma compute_after_migrate_eq calc r is_in w :
  _compute_instance_load_after_migrate calc r is_in w
  = (load_after_migrate calc is_in (deref w r),
     (alloc (after_migrate is_in (deref w r)) w).2).
Proof.
  unfold _compute_instance_load_after_migrate, deepcopy, load_after_migrate,
    after_migrate, alloc.
  cbv zeta iota beta. rewrite deref_new.
  destruct is_in; rewrite !setattr_new, deref_new; reflexivity.
Qed.

(** ** The loops of the policies *)

Lemma fold_left_fmap {A B C} (f : A -> B -> A) (g : C -> B) l a :
  fold_left f (g <$> l) a = fold_left (fun a x => f a (g x)) l a.
Proof. revert a. induction l as [|x l IH]; intros a; simpl; [done | apply IH]. Qed.

(** The loop over [range(min(len(left), len(right)))] visits the zipped
    lists. *)
Lemma for_zipped_combine {T} (l r : list ref) (body : ref -> ref -> T -> T) init :
  for_zipped l r body init
  = fold_left (fun st lr => body lr.1 lr.2 st) (combine l r) init.
Proof.
  unfold for_zipped. revert r init.
  induction l as [|x l IH]; intros [|y r] init; simpl; try reflexivity.
  rewrite <- seq_shift.
  change (map S (seq 0 (length l `min` length r)))
    with (S <$> seq 0 (length l `min` length r)).
  rewrite fold_left_fmap. simpl. apply IH.
Qed.

Lemma append_pair_loop w zs pairs :
  fold_left (fun st lr => append_pair lr.1 lr.2 st) zs (pairs, w)
  = (pairs ++ map (pair_ids w) zs, w).
Proof.
  revert pairs. induction zs as [|[l r] zs IH]; intros pairs; simpl.
  - by rewrite app_nil_r.
  - rewrite IH. by rewrite <- app_assoc.
Qed.

Lemma Balanced_iteration_eq thr calc w0 w l r pairs :
  extends w0 w -> valid_ref w0 l -> valid_ref w0 r ->
  exists w', extends w0 w'
    /\ Balanced_iteration thr calc l r (pairs, w)
       = (if accepted thr calc w0 (l, r) then pairs ++ [pair_ids w0 (l, r)]
          else pairs, w').
Proof.
  intros E Vl Vr. unfold Balanced_iteration.
  rewrite compute_after_migrate_eq.
  set (w1 := (alloc (after_migrate true (deref w l)) w).2).
  rewrite compute_after_migrate_eq.
  set (w2 := (alloc (after_migrate false (deref w1 r)) w1).2).
  assert (E1 : extends w0 w1)
    by (eapply extends_trans; [exact E | apply alloc_extends]).
  assert (E2 : extends w0 w2)
    by (eapply extends_trans; [exact E1 | apply alloc_extends]).
  rewrite (extends_deref w0 w l E Vl), (extends_deref w0 w r E Vr),
    (extends_deref w0 w1 r E1 Vr), (extends_deref w0 w2 l E2 Vl),
    (extends_deref w0 w2 r E2 Vr).
  exists w2. split; [exact E2|].
  unfold accepted, Balanced_accepts, pair_ids; simpl.
  destruct (thr <? load_after_migrate calc true (deref w0 l))%float; simpl;
    [reflexivity|].
  match goal with |- (if ?b then _ else _) = _ => destruct b end; reflexivity.
Qed.

Lemma Balanced_loop thr calc w0 zs : forall w pairs,
  extends w0 w ->
  Forall (fun lr => valid_ref w0 lr.1 /\ valid_ref w0 lr.2) zs ->
  exists w', extends w0 w'
    /\ fold_left (fun st lr => Balanced_iteration thr calc lr.1 lr.2 st) zs
         (pairs, w)
       = (pairs ++ map (pair_ids w0) (List.filter (accepted thr calc w0) zs), w').
Proof.
  induction zs as [|[l r] zs IH]; intros w pairs E V.
  - exists w. simpl. by rewrite app_nil_r.
  - inversion V as [|? ? [Vl Vr] V']; subst. cbn [fst snd] in Vl, Vr.
    cbn [fold_left fst snd List.filter].
    destruct (Balanced_iteration_eq thr calc w0 w l r pairs E Vl Vr)
      as (w1 & E1 & ->).
    destruct (IH w1 (if accepted thr calc w0 (l, r)
                     then pairs ++ [pair_ids w0 (l, r)] else pairs) E1 V')
      as (w' & E' & ->).
    exists w'. split; [exact E'|].
    destruct (accepted thr calc w0 (l, r)); simpl; [|reflexivity].
    by rewrite <- app_assoc.
Qed.

Lemma Balanced_iteration_extends thr calc l r pairs w :
  extends w (Balanced_iteration thr calc l r (pairs, w)).2.
Proof.
  unfold Balanced_iteration. rewrite !compute_after_migrate_eq.
  set (w1 := (alloc (after_migrate true (deref w l)) w).2).
  set (w2 := (alloc (after_migrate false (deref w1 r)) w1).2).
  assert (E2 : extends w w2)
    by (eapply extends_trans; apply alloc_extends).
  repeat match goal with |- context [if ?b then _ else _] => destruct b end;
    exact E2.
Qed.

Lemma Balanced_loop_extends thr calc zs : forall st,
  extends st.2
    (fold_left (fun st lr => Balanced_iteration thr calc lr.1 lr.2 st) zs st).2.
Proof.
  induction zs as [|[l r] zs IH]; intros [pairs w]; cbn [fold_left fst snd].
  - apply extends_refl.
  - eapply extends_trans; [|apply IH].
    apply Balanced_iteration_extends.
Qed.

(** ** sorted *)

Lemma insert_by_perm {A} (key : A -> float) x l : insert_by key x l ≡ₚ x :: l.
Proof.
  induction l as [|y l IH]; simpl; [done|].
  destruct (key y <? key x)%float; [|done].
  rewrite IH. apply perm_swap.
Qed.

Lemma sorted_perm {A} (l : list A) key reverse : sorted l key reverse ≡ₚ l.
Proof.
  assert (P : forall l' : list A, foldr (insert_by key) [] l' ≡ₚ l').
  { induction l' as [|x l' IH]; simpl; [done|].
    rewrite insert_by_perm. by rewrite IH. }
  unfold sorted. destruct reverse.
  - rewrite <- Permutation_rev, P. by rewrite <- Permutation_rev.
  - apply P.
Qed.

Lemma elem_of_sorted {A} (l : list A) key reverse x :
  x ∈ sorted l key reverse <-> x ∈ l.
Proof. by rewrite sorted_perm. Qed.

(** ** What [check_migrate] returns *)

Lemma zipped_elem cls thr w l x y :
  (x, y) ∈ zipped cls thr w l ->
  x ∈ l /\ y ∈ l /\ is_migrate_in thr w x = true
  /\ (cls <> PrefillRelaxed -> is_migrate_out thr w y = true).
Proof.
  intros H. rewrite list_elem_of_In in H.
  assert (HL : forall r, In (x, y) (combine (left_instance_infos thr w l) r) ->
                 x ∈ l /\ is_migrate_in thr w x = true).
  { intros r Hr. apply in_combine_l in Hr.
    unfold left_instance_infos in Hr. apply filter_In in Hr as [Hx ?].
    by rewrite list_elem_of_In. }
  assert (HR : In (x, y) (combine (left_instance_infos thr w l)
                            (right_instance_infos thr w l)) ->
               y ∈ l /\ is_migrate_out thr w y = true).
  { intros Hr. apply in_combine_r in Hr.
    unfold right_instance_infos in Hr. apply filter_In in Hr as [Hy ?].
    apply in_rev in Hy. by rewrite list_elem_of_In. }
  destruct cls; simpl in H.
  - destruct (HL _ H), (HR H); auto.
  - destruct (HL _ H), (HR H); auto.
  - destruct (HL _ H) as [? ?]. split; [assumption|]. split.
    + apply in_combine_r, in_rev in H. by rewrite list_elem_of_In.
    + split; [assumption | congruence].
Qed.

Lemma policy_check_migrate_eq p l w :
  Forall (valid_ref w) l ->
  exists w', extends w w'
    /\ policy_check_migrate p l w = (map (pair_ids w) (emitted p w l), w').
Proof.
  intros V. unfold policy_check_migrate, emitted.
  destruct (policy_class p); simpl.
  - unfold Balanced_check_migrate. rewrite for_zipped_combine.
    destruct (Balanced_loop (policy_migrate_out_load_threshold p)
                (policy_instance_load_calculator p) w
                (combine (left_instance_infos (policy_migrate_out_load_threshold p) w l)
                   (right_instance_infos (policy_migrate_out_load_threshold p) w l))
                w [] (extends_refl w)) as (w' & E & ->).
    + apply Forall_forall. intros [x y] Hxy.
      destruct (zipped_elem Balanced _ _ _ _ _ Hxy) as (Hx & Hy & _).
      rewrite Forall_forall in V. split; apply V; simpl; assumption.
    + exists w'. by split.
  - exists w. split; [apply extends_refl|].
    unfold PrefillConstrained_check_migrate.
    by rewrite for_zipped_combine, append_pair_loop.
  - exists w. split; [apply extends_refl|].
    unfold PrefillRelaxed_check_migrate.
    by rewrite for_zipped_combine, append_pair_loop.
Qed.

Lemma policy_check_migrate_extends p l w :
  extends w (policy_check_migrate p l w).2.
Proof.
  unfold policy_check_migrate. destruct (policy_class p).
  - unfold Balanced_check_migrate. rewrite for_zipped_combine.
    apply (Balanced_loop_extends _ _ _ ([], w)).
  - unfold PrefillConstrained_check_migrate.
    rewrite for_zipped_combine, append_pair_loop. apply extends_refl.
  - unfold PrefillRelaxed_check_migrate.
    rewrite for_zipped_combine, append_pair_loop. apply extends_refl.
Qed.

(** ** dict *)

Lemma dict_get_None k d : dict_get k d = None <-> k ∉ dict_keys d.
Proof.
  induction d as [|[k' v] d IH]; simpl.
  - split; [intros _; apply not_elem_of_nil | done].
  - rewrite not_elem_of_cons. destruct (decide (k = k')) as [->|Hne].
    + split; [done | intros [? _]; done].
    + rewrite IH. tauto.
Qed.

Lemma dict_contains_true k d : dict_contains k d = true <-> k ∈ dict_keys d.
Proof.
  unfold dict_contains. destruct (dict_get k d) eqn:E.
  - split; [intros _ | done].
    destruct (decide (k ∈ dict_keys d)) as [|N]; [done|].
    apply dict_get_None in N. congruence.
  - apply dict_get_None in E. split; [done | intros; contradiction].
Qed.

Lemma dict_contains_false k d : dict_contains k d = false <-> k ∉ dict_keys d.
Proof.
  rewrite <- dict_contains_true. destruct (dict_contains k d); split; congruence.
Qed.

Lemma dict_set_absent k v d :
  dict_contains k d = false -> dict_set k v d = d ++ [(k, v)].
Proof.
  rewrite dict_contains_false.
  induction d as [|[k' v'] d IH]; simpl; [done|].
  rewrite not_elem_of_cons. intros [Hne Hd].
  destruct (decide (k = k')); [done|]. by rewrite IH.
Qed.

Lemma dict_set_keys k v d :
  dict_contains k d = true -> dict_keys (dict_set k v d) = dict_keys d.
Proof.
  rewrite dict_contains_true.
  induction d as [|[k' v'] d IH]; simpl.
  - intros H. by apply elem_of_nil in H.
  - destruct (decide (k = k')) as [->|Hne]; [done|].
    rewrite elem_of_cons. intros [?|Hd]; [done|].
    simpl. f_equal. by apply IH.
Qed.

Lemma dict_get_set k k' v d :
  dict_get k' (dict_set k v d)
  = if decide (k' = k) then Some v else dict_get k' d.
Proof.
  induction d as [|[k0 v0] d IH]; simpl.
  - by destruct (decide (k' = k)).
  - destruct (decide (k = k0)) as [->|Hne]; simpl.
    + by destruct (decide (k' = k0)).
    + destruct (decide (k' = k0)) as [->|Hne'].
      * destruct (decide (k0 = k)); [congruence | done].
      * exact IH.
Qed.

Lemma elem_of_dict_set k v d k' r :
  (k', r) ∈ dict_set k v d -> (k', r) = (k, v) \/ (k', r) ∈ d.
Proof.
  induction d as [|[k0 v0] d IH]; simpl.
  - rewrite list_elem_of_singleton. auto.
  - destruct (decide (k = k0)) as [->|Hne]; rewrite !elem_of_cons.
    + intros [?|?]; auto.
    + intros [?|?]; [auto|]. destruct IH; auto.
Qed.

Lemma dict_get_elem k r d :
  NoDup (dict_keys d) -> (k, r) ∈ d <-> dict_get k d = Some r.
Proof.
  induction d as [|[k0 v0] d IH]; simpl; intros ND.
  - split; [intros H; by apply elem_of_nil in H | done].
  - apply NoDup_cons in ND as [Hk0 ND]. rewrite elem_of_cons.
    destruct (decide (k = k0)) as [->|Hne].
    + split.
      * intros [E|Hd]; [congruence|].
        exfalso. apply Hk0. apply list_elem_of_fmap. by exists (k0, r).
      * intros [= ->]. by left.
    + rewrite <- (IH ND). split; [intros [?|?]; [congruence | done] | auto].
Qed.

Lemma dict_del_split k d d' :
  dict_del k d = Ok d' ->
  exists d1 v d2, d = d1 ++ (k, v) :: d2 /\ d' = d1 ++ d2 /\ k ∉ dict_keys d1.
Proof.
  revert d'. induction d as [|[k0 v0] d IH]; simpl; intros d' H; [done|].
  destruct (decide (k = k0)) as [->|Hne].
  - injection H as <-. exists [], v0, d. repeat split. apply not_elem_of_nil.
  - destruct (dict_del k d) as [d''|] eqn:E; simpl in H; [|done].
    injection H as <-.
    destruct (IH d'' eq_refl) as (d1 & v & d2 & -> & -> & Hk).
    exists ((k0, v0) :: d1), v, d2. repeat split.
    simpl. rewrite not_elem_of_cons. auto.
Qed.

Lemma dict_del_present k d :
  dict_contains k d = true -> is_ok (dict_del k d).
Proof.
  rewrite dict_contains_true. unfold is_ok.
  induction d as [|[k0 v0] d IH]; simpl.
  - intros H. by apply elem_of_nil in H.
  - destruct (decide (k = k0)) as [->|Hne]; [by eexists|].
    rewrite elem_of_cons. intros [?|Hd]; [done|].
    destruct (IH Hd) as [d' ->]. by eexists.
Qed.

Lemma dict_del_snoc k v d :
  dict_contains k d = false -> dict_del k (d ++ [(k, v)]) = Ok d.
Proof.
  rewrite dict_contains_false.
  induction d as [|[k0 v0] d IH]; simpl.
  - intros _. by destruct (decide (k = k)).
  - rewrite not_elem_of_cons. intros [Hne Hd].
    destruct (decide (k = k0)); [done|]. by rewrite (IH Hd).
Qed.

(** ** Attribute assignment *)

Lemma deref_setattr r f w j :
  deref (setattr r f w) j
  = if decide (r = j /\ valid_ref w r) then f (deref w r) else deref w j.
Proof. unfold deref, setattr, valid_ref; simpl. apply list_lookup_total_alter. Qed.

Lemma valid_ref_setattr r f w j : valid_ref (setattr r f w) j <-> valid_ref w j.
Proof. unfold valid_ref, setattr; simpl. by rewrite length_alter. Qed.

(** ** update_instance_infos *)

Section Update.

Context {DS SS : Type}.
Variable gs : GlobalScheduler DS SS.

Let calc := instance_load_calculator gs.

Lemma instance_id_refresh_loads o :
  instance_id (refresh_loads calc o) = instance_id o.
Proof. reflexivity. Qed.

(** One step on a valid reference whose id is registered: the object gets
    its two loads, the entry of its id becomes this object. *)
Lemma update_instance_info_known w r :
  valid_ref w r ->
  dict_contains (instance_id (deref w r)) (registry w) = true ->
  deref (GS.update_instance_info gs w r) r = refresh_loads calc (deref w r)
  /\ registry (GS.update_instance_info gs w r)
     = dict_set (instance_id (deref w r)) r (registry w).
Proof.
  intros V C. unfold GS.update_instance_info.
  destruct (instance_info gs); simpl. rewrite C.
  set (w1 := setattr r _ w).
  set (w2 := setattr r _ w1).
  assert (V1 : valid_ref w1 r) by by apply valid_ref_setattr.
  assert (D1 : deref w1 r
               = set_instance_load_dispatch_scale
                   (compute_instance_load calc (deref w r) "dispatch")
                   (deref w r)).
  { unfold w1. rewrite deref_setattr. by rewrite decide_True. }
  assert (D2 : deref w2 r = refresh_loads calc (deref w r)).
  { unfold w2. rewrite deref_setattr, decide_True by done.
    rewrite D1. reflexivity. }
  split.
  - exact D2.
  - simpl. by rewrite D2.
Qed.

Lemma update_instance_info_unknown w r :
  dict_contains (instance_id (deref w r)) (registry w) = false ->
  GS.update_instance_info gs w r = w.
Proof.
  intros C. unfold GS.update_instance_info.
  destruct (instance_info gs); simpl. by rewrite C.
Qed.

(** What every step keeps, for any reference. *)
Lemma update_instance_info_frame w r :
  let w' := GS.update_instance_info gs w r in
  dict_keys (registry w') = dict_keys (registry w)
  /\ length (objects w') = length (objects w)
  /\ (forall j, instance_id (deref w' j) = instance_id (deref w j))
  /\ (forall j, j <> r -> deref w' j = deref w j)
  /\ (forall k x, (k, x) ∈ registry w' ->
        (k, x) ∈ registry w \/ (x = r /\ k = instance_id (deref w r)))
  /\ (forall k, k <> instance_id (deref w r) ->
        dict_get k (registry w') = dict_get k (registry w)).
Proof.
  unfold GS.update_instance_info. destruct (instance_info gs); simpl.
  destruct (dict_contains (instance_id (deref w r)) (registry w)) eqn:C;
    [|by repeat split; auto].
  set (w1 := setattr r _ w).
  set (w2 := setattr r _ w1).
  assert (I1 : forall j, instance_id (deref w1 j) = instance_id (deref w j)).
  { intros j. unfold w1. rewrite deref_setattr.
    case_decide as H; [destruct H as [-> _]|]; reflexivity. }
  assert (I2 : forall j, instance_id (deref w2 j) = instance_id (deref w j)).
  { intros j. unfold w2. rewrite deref_setattr.
    case_decide as H; [destruct H as [-> _]|]; simpl; apply I1. }
  simpl. rewrite I2. repeat split.
  - by apply dict_set_keys.
  - by rewrite !length_alter.
  - exact I2.
  - intros j Hj. change (deref w2 j = deref w j). unfold w2.
    rewrite deref_setattr, decide_False by (intros [? _]; congruence).
    unfold w1.
    by rewrite deref_setattr, decide_False by (intros [? _]; congruence).
  - intros k x H. apply elem_of_dict_set in H as [[= -> ->]|H]; auto.
  - intros k Hk. rewrite dict_get_set. by rewrite decide_False.
Qed.

Lemma update_instance_infos_frame batch : forall w,
  let w' := GS.update_instance_infos batch w gs in
  dict_keys (registry w') = dict_keys (registry w)
  /\ length (objects w') = length (objects w)
  /\ (forall j, instance_id (deref w' j) = instance_id (deref w j))
  /\ (forall j, j ∉ batch -> deref w' j = deref w j)
  /\ (forall k x, (k, x) ∈ registry w' ->
        (k, x) ∈ registry w \/ (x ∈ batch /\ k = instance_id (deref w x)))
  /\ (forall k, (forall x, x ∈ batch -> instance_id (deref w x) <> k) ->
        dict_get k (registry w') = dict_get k (registry w)).
Proof.
  unfold GS.update_instance_infos.
  induction batch as [|r batch IH]; intros w; cbn [fold_left].
  - repeat split; auto.
  - destruct (update_instance_info_frame w r) as (K1 & L1 & I1 & D1 & E1 & G1).
    destruct (IH (GS.update_instance_info gs w r)) as (K & L & I & D & E & G).
    repeat split.
    + by rewrite K.
    + by rewrite L.
    + intros j. by rewrite I.
    + intros j Hj. apply not_elem_of_cons in Hj as [? ?].
      rewrite D by done. by apply D1.
    + intros k x H. apply E in H as [H|[Hx ->]].
      * apply E1 in H as [H|[-> ->]]; [by left | right].
        split; [apply elem_of_cons; by left | done].
      * right. split; [apply elem_of_cons; by right | apply I1].
    + intros k Hk. rewrite G.
      * apply G1. intros ->. eapply Hk; [|reflexivity].
        apply elem_of_cons; by left.
      * intros x Hx. rewrite I1. apply Hk. apply elem_of_cons; by right.
Qed.

End Update.

(** ** The invariant of the registry *)

Lemma registry_ok_extends w w' :
  extends w w' -> registry_ok w -> registry_ok w'.
Proof.
  intros E [ND H]. pose proof E as [R _]. split; rewrite R; [done|].
  intros k r Hkr. destruct (H k r Hkr) as [V I]. split.
  - by eapply extends_valid.
  - by rewrite (extends_deref w w' r E V).
Qed.

Lemma list_to_set_keys_del (k : string) (v : ref) (d1 d2 : dict) :
  NoDup (dict_keys (d1 ++ (k, v) :: d2)) ->
  list_to_set (C := gset string) (dict_keys (d1 ++ d2))
  = list_to_set (dict_keys (d1 ++ (k, v) :: d2)) ∖ {[k]}.
Proof.
  unfold dict_keys. rewrite !fmap_app, fmap_cons. simpl. intros ND.
  apply NoDup_app in ND as (_ & H1 & ND2).
  apply NoDup_cons in ND2 as [H2 _].
  assert (k ∉ d1.*1) by (intros Hk; apply (H1 k Hk); by left).
  rewrite !list_to_set_app_L, list_to_set_cons.
  apply set_eq. intros x.
  rewrite elem_of_difference. rewrite !elem_of_union.
  rewrite !elem_of_list_to_set. rewrite elem_of_singleton.
  split.
  - intros [Hx|Hx]; (split; [tauto | intros ->; contradiction]).
  - tauto.
Qed.

Section Invariant.

Context {DS SS : Type} `{!DispatchSchedulerOps DS} `{!ScaleSchedulerOps SS}.
Variable load_formula : string -> bool -> InstanceInfo -> string -> float.

Implicit Types (gs : GlobalScheduler DS SS) (w : Store).

Lemma registry_ok_update batch w gs :
  Forall (valid_ref w) batch -> registry_ok w ->
  registry_ok (GS.update_instance_infos batch w gs).
Proof.
  intros V [ND H].
  destruct (update_instance_infos_frame gs batch w) as (K & L & I & _ & E & _).
  split; [by rewrite K|].
  intros k r Hkr. unfold valid_ref. rewrite L, I.
  apply E in Hkr as [Hkr|[Hr ->]].
  - by apply H.
  - split; [|done]. rewrite Forall_forall in V. by apply V.
Qed.

(** The state after one iteration of [scale_up]. *)
Lemma scale_up_one_eq w gs k :
  GS.scale_up_one (w, gs) k
  = if dict_contains k (registry w) then (w, gs)
    else (mkStore
            (objects w ++ [set_instance_id k (GS._get_empty_instance_info gs)])
            (registry w ++ [(k, length (objects w))]),
          GS._add_instance k gs).
Proof.
  unfold GS.scale_up_one. destruct (instance_info gs); simpl.
  destruct (dict_contains k (registry w)) eqn:C; simpl; [done|].
  unfold alloc. rewrite setattr_new. unfold set_registry; simpl.
  by rewrite (dict_set_absent _ _ _ C).
Qed.

Lemma GS_inv_scale_up_one w gs k :
  GS_inv w gs ->
  GS_inv (GS.scale_up_one (w, gs) k).1 (GS.scale_up_one (w, gs) k).2.
Proof.
  intros Inv. rewrite scale_up_one_eq.
  destruct (dict_contains k (registry w)) eqn:C; [exact Inv|].
  destruct Inv as ([ND H] & Hset & Hnum & Hms). simpl.
  apply dict_contains_false in C.
  assert (K : dict_keys (registry w ++ [(k, length (objects w))])
              = dict_keys (registry w) ++ [k])
    by (unfold dict_keys; by rewrite fmap_app).
  split; [split|split; [|split]]; simpl.
  - rewrite K. apply NoDup_app. split; [done|]. split.
    + intros x Hx Hx'. apply list_elem_of_singleton in Hx' as ->. done.
    + apply NoDup_singleton.
  - intros k' r Hk'. apply elem_of_app in Hk' as [Hk'|Hk'].
    + destruct (H k' r Hk') as [V I]. split.
      * unfold valid_ref in *; simpl. rewrite length_app. lia.
      * unfold deref in *; simpl. by rewrite lookup_total_app_l.
    + apply list_elem_of_singleton in Hk' as [= -> ->]. split.
      * unfold valid_ref; simpl. rewrite length_app; simpl. lia.
      * by rewrite deref_new.
  - rewrite K, list_to_set_snoc_L, Hset. unfold set_add.
    apply set_eq. intros x. rewrite !elem_of_union. tauto.
  - reflexivity.
  - by rewrite Hms.
Qed.

Lemma GS_inv_scale_up ids w gs :
  GS_inv w gs -> GS_inv (GS.scale_up ids w gs).1 (GS.scale_up ids w gs).2.
Proof.
  unfold GS.scale_up. generalize (GS.instance_ids_of ids). intros l.
  revert w gs. induction l as [|k l IH]; intros w gs Inv; [exact Inv|].
  cbn [fold_left].
  pose proof (GS_inv_scale_up_one w gs k Inv) as Inv1.
  destruct (GS.scale_up_one (w, gs) k) as [w1 gs1]. by apply IH.
Qed.

(** [_remove_instance] on a registered id does not raise. *)
Lemma remove_instance_ok gs k :
  k ∈ instance_id_set gs ->
  ms_instance_id_set (migrate_scheduler gs) = instance_id_set gs ->
  exists gs', GS._remove_instance k gs = Ok gs'
    /\ instance_id_set gs' = instance_id_set gs ∖ {[k]}
    /\ num_instance gs' = size (instance_id_set gs')
    /\ ms_instance_id_set (migrate_scheduler gs') = instance_id_set gs'
    /\ check_migrate_policy (migrate_scheduler gs')
       = check_migrate_policy (migrate_scheduler gs).
Proof.
  intros Hk Hms. unfold GS._remove_instance, MS.remove_instance, set_remove.
  rewrite decide_True by done. simpl.
  rewrite Hms, decide_True by done. simpl.
  eexists. split; [reflexivity|]. by repeat split.
Qed.

(** One iteration of [scale_down] keeps the invariant and does not raise. *)
Lemma GS_inv_scale_down_one w gs k :
  GS_inv w gs ->
  exists w' gs', GS.scale_down_one (Ok (w, gs)) k = Ok (w', gs')
    /\ GS_inv w' gs'.
Proof.
  intros Inv. unfold GS.scale_down_one. simpl.
  destruct (instance_info gs); simpl.
  destruct (dict_contains k (registry w)) eqn:C; [|by exists w, gs].
  destruct (dict_del_present k _ C) as [d Hd]. rewrite Hd. simpl.
  destruct Inv as ([ND H] & Hset & Hnum & Hms).
  assert (Hk : k ∈ instance_id_set gs).
  { rewrite Hset, elem_of_list_to_set. by apply dict_contains_true. }
  destruct (remove_instance_ok gs k Hk Hms) as (gs' & -> & S1 & S2 & S3 & _).
  simpl. exists (set_registry d w), gs'. split; [done|].
  destruct (dict_del_split _ _ _ Hd) as (d1 & v & d2 & Hreg & -> & Hk1).
  split; [split|split; [|split]]; simpl.
  - rewrite Hreg in ND. unfold dict_keys in *.
    rewrite fmap_app in *. rewrite fmap_cons in ND.
    apply NoDup_app in ND as (N1 & N2 & N3).
    apply NoDup_cons in N3 as [_ N3]. apply NoDup_app. repeat split; auto.
    intros x Hx Hx'. apply (N2 x Hx). by right.
  - intros k' r Hk'. apply (H k' r). rewrite Hreg.
    apply elem_of_app in Hk' as [?|?]; apply elem_of_app; [by left|].
    right. by right.
  - rewrite S1, Hset, Hreg. symmetry. apply list_to_set_keys_del.
    by rewrite <- Hreg.
  - exact S2.
  - exact S3.
Qed.

Lemma scale_down_one_raise l : forall e,
  fold_left (GS.scale_down_one (DS := DS) (SS := SS)) l (Raise e) = Raise e.
Proof. induction l as [|k l IH]; intros e; simpl; [done | apply IH]. Qed.

Lemma GS_inv_scale_down ids w gs :
  GS_inv w gs ->
  exists w' gs', GS.scale_down ids w gs = Ok (w', gs') /\ GS_inv w' gs'.
Proof.
  unfold GS.scale_down. generalize (GS.instance_ids_of ids). intros l.
  revert w gs. induction l as [|k l IH]; intros w gs Inv.
  - by exists w, gs.
  - cbn [fold_left].
    destruct (GS_inv_scale_down_one w gs k Inv) as (w1 & gs1 & -> & Inv1).
    by apply IH.
Qed.

Lemma MS_init_fields name thr calc ms :
  MS.init name thr calc = Ok ms ->
  ms_instance_id_set ms = ∅ /\ ms_num_instance ms = 0
  /\ ms_instance_info ms = None
  /\ policy_migrate_out_load_threshold (check_migrate_policy ms) = thr
  /\ policy_instance_load_calculator (check_migrate_policy ms) = calc.
Proof.
  unfold MS.init, get_policy.
  destruct (negb (enable_prefill_migrate calc));
    match goal with |- context [_POLICY_REGISTRY !! ?n] =>
      destruct (_POLICY_REGISTRY !! n) end; simpl; intros [= <-]; by repeat split.
Qed.

Lemma GS_inv_init cfg w0 w gs :
  GS.init load_formula cfg w0 = Ok (w, gs) -> GS_inv w gs.
Proof.
  unfold GS.init.
  destruct (ds_init _ _) as [ds|]; simpl; [|done].
  destruct (MS.init _ _ _) as [ms|] eqn:Hms; simpl; [|done].
  destruct (ss_init _ _ _ _) as [ss|]; simpl; [|done].
  intros [= <- <-]. apply MS_init_fields in Hms as (Hset & _).
  split; [split|split; [|split]]; simpl.
  - apply NoDup_nil_2.
  - intros k r H. by apply elem_of_nil in H.
  - reflexivity.
  - reflexivity.
  - exact Hset.
Qed.

(** [check_migrate] does not raise; it returns what the policy returns on
    the sorted registry, and changes no attribute of the scheduler other
    than the migration sub-scheduler's snapshot and sorted list. *)
Lemma GS_check_migrate_eq w gs :
  let out := policy_check_migrate (check_migrate_policy (migrate_scheduler gs))
               (sorted_registry w) w in
  exists gs', GS.check_migrate w gs = Ok (out.1, out.2, gs')
    /\ num_instance gs' = num_instance gs
    /\ instance_id_set gs' = instance_id_set gs
    /\ instance_info gs' = instance_info gs
    /\ ms_instance_id_set (migrate_scheduler gs')
       = ms_instance_id_set (migrate_scheduler gs)
    /\ check_migrate_policy (migrate_scheduler gs')
       = check_migrate_policy (migrate_scheduler gs).
Proof.
  unfold GS.check_migrate, MS.check_migrate, MS._sort_instance_infos,
    MS.update_instance_infos, sorted_registry.
  destruct (instance_info gs). simpl.
  destruct (policy_check_migrate _ _ w) as [pairs w']. simpl.
  eexists. split; [reflexivity|]. repeat split.
  simpl. by destruct (instance_info gs).
Qed.

Lemma registry_values_valid w :
  registry_ok w -> Forall (valid_ref w) (sorted_registry w).
Proof.
  intros [_ H]. apply Forall_forall. intros r Hr.
  unfold sorted_registry in Hr. apply elem_of_sorted in Hr.
  unfold dict_values in Hr.
  apply list_elem_of_fmap in Hr as ([k r'] & -> & Hkr). by apply (H k r').
Qed.

Theorem reachable_inv w gs : reachable load_formula w gs -> GS_inv w gs.
Proof.
  induction 1 as [cfg w0 w gs Hinit
                 | w gs o _ IH
                 | w gs batch _ IH V
                 | w gs id gs' _ IH Hd
                 | w gs pairs w' gs' _ IH Hc
                 | w gs up down gs' _ IH Hc
                 | w gs ids w' gs' _ IH Hs
                 | w gs ids w' gs' _ IH Hs].
  - by eapply GS_inv_init.
  - destruct IH as (Hok & Hrest). split; [|exact Hrest].
    eapply registry_ok_extends; [apply alloc_extends | exact Hok].
  - destruct IH as (Hok & Hset & Hrest). split; [|split; [|exact Hrest]].
    + by apply registry_ok_update.
    + rewrite Hset. f_equal. symmetry.
      apply (update_instance_infos_frame gs batch w).
  - unfold GS.dispatch in Hd.
    destruct (ds_dispatch _ _) as [[id' ds]|]; simpl in Hd; [|done].
    injection Hd as <- <-. exact IH.
  - destruct (GS_check_migrate_eq w gs) as (gs0 & E & N & S & _ & M & _).
    rewrite E in Hc. injection Hc as <- <- <-.
    destruct IH as (Hok & Hset & Hnum & Hms). split; [|split; [|split]].
    + eapply registry_ok_extends; [apply policy_check_migrate_extends|done].
    + rewrite S, Hset. f_equal. f_equal.
      symmetry. apply (policy_check_migrate_extends _ _ w).
    + by rewrite N, S.
    + by rewrite M, S.
  - unfold GS.check_scale in Hc.
    destruct (ss_check_scale _ _) as [[[u d] ss]|]; simpl in Hc; [|done].
    injection Hc as <- <- <-. exact IH.
  - pose proof (GS_inv_scale_up ids w gs IH) as Inv.
    by rewrite Hs in Inv.
  - destruct (GS_inv_scale_down ids w gs IH) as (w1 & gs1 & E & Inv).
    rewrite E in Hs. by injection Hs as <- <-.
Qed.

End Invariant.

(** ** The pairs of [check_migrate] *)

Lemma in_out_exclusive thr w x :
  is_migrate_in thr w x = true -> is_migrate_out thr w x = false.
Proof.
  unfold is_migrate_in, is_migrate_out.
  intros [K L]%andb_true_iff. apply orb_false_iff. split.
  - apply Z.eqb_eq in K. rewrite K. reflexivity.
  - by apply F.ltb_asym.
Qed.

Lemma emitted_zipped p w l xy :
  xy ∈ emitted p w l ->
  xy ∈ zipped (policy_class p) (policy_migrate_out_load_threshold p) w l
  /\ (policy_class p = Balanced ->
      accepted (policy_migrate_out_load_threshold p)
        (policy_instance_load_calculator p) w xy = true).
Proof.
  unfold emitted. destruct (policy_class p); intros H.
  - apply list_elem_of_In, filter_In in H as [H A].
    split; [by apply list_elem_of_In | done].
  - split; [done | discriminate].
  - split; [done | discriminate].
Qed.

Lemma registry_value_entry w x :
  registry_ok w -> x ∈ dict_values (registry w) ->
  dict_get (instance_id (deref w x)) (registry w) = Some x.
Proof.
  intros [ND H] Hx. unfold dict_values in Hx.
  apply list_elem_of_fmap in Hx as ([k r] & -> & Hkr). simpl.
  destruct (H k r Hkr) as [_ ->]. by apply dict_get_elem.
Qed.

Section Pairs.

Context {DS SS : Type} `{!DispatchSchedulerOps DS} `{!ScaleSchedulerOps SS}.

Implicit Types (gs : GlobalScheduler DS SS) (w : Store).

Lemma check_migrate_pairs w gs pairs w' gs' :
  registry_ok w ->
  GS.check_migrate w gs = Ok (pairs, w', gs') ->
  pairs = map (pair_ids w) (emitted (policy_of gs) w (sorted_registry w)).
Proof.
  intros Hok Hc.
  destruct (GS_check_migrate_eq w gs) as (gs0 & E & _).
  rewrite E in Hc. injection Hc as <- _ _. unfold policy_of.
  destruct (policy_check_migrate_eq (check_migrate_policy (migrate_scheduler gs))
              (sorted_registry w) w (registry_values_valid w Hok))
    as (w1 & _ & ->).
  reflexivity.
Qed.

(** Every returned pair comes from a zipped pair of registry entries: the
    destination from the migrate-in side, the source from the other. *)
Lemma pair_entries w gs pairs w' gs' s d :
  registry_ok w ->
  GS.check_migrate w gs = Ok (pairs, w', gs') ->
  (s, d) ∈ pairs ->
  exists l r,
    (l, r) ∈ emitted (policy_of gs) w (sorted_registry w)
    /\ dict_get d (registry w) = Some l /\ dict_get s (registry w) = Some r.
Proof.
  intros Hok Hc Hsd. rewrite (check_migrate_pairs _ _ _ _ _ Hok Hc) in Hsd.
  apply list_elem_of_In, in_map_iff in Hsd as ([l r] & [= <- <-] & Hlr).
  apply list_elem_of_In in Hlr. exists l, r. split; [done|].
  destruct (emitted_zipped _ _ _ _ Hlr) as [Hz _].
  destruct (zipped_elem _ _ _ _ _ _ Hz) as (Hl & Hr & _).
  unfold sorted_registry in Hl, Hr. apply elem_of_sorted in Hl, Hr.
  split; by apply registry_value_entry.
Qed.

(** C1 (as amended). In every state whose registry is well formed (hence
    in every reachable state): under [balanced] and [prefill_constrained]
    each pair [(s, d)] that [check_migrate] returns has [s <> d]; under
    [prefill_relaxed] the list returned is every zipped pair, the i-th
    object in descending order as source and the i-th migrate-in object
    as destination, none dropped. *)
Theorem check_migrate_source_differs w gs pairs w' gs' :
  registry_ok w ->
  GS.check_migrate w gs = Ok (pairs, w', gs') ->
  (policy_class (policy_of gs) <> PrefillRelaxed ->
   forall s d, (s, d) ∈ pairs -> s <> d)
  /\ (policy_class (policy_of gs) = PrefillRelaxed ->
      pairs
      = map (pair_ids w)
          (combine
             (left_instance_infos
                (policy_migrate_out_load_threshold (policy_of gs)) w
                (sorted_registry w))
             (rev (sorted_registry w)))).
Proof.
  intros Hok Hc. split.
  - intros Hcls s d Hsd ->.
    destruct (pair_entries _ _ _ _ _ _ _ Hok Hc Hsd) as (l & r & Hlr & Hl & Hr).
    assert (l = r) as -> by congruence.
    destruct (emitted_zipped _ _ _ _ Hlr) as [Hz _].
    destruct (zipped_elem _ _ _ _ _ _ Hz) as (_ & _ & Hin & Hout).
    apply in_out_exclusive in Hin. rewrite (Hout Hcls) in Hin. discriminate.
  - intros Hcls. rewrite (check_migrate_pairs _ _ _ _ _ Hok Hc).
    unfold emitted. by rewrite Hcls.
Qed.

(** C8. In every state whose registry is well formed, each pair [(s, d)]
    that [check_migrate] returns has a destination [d] registered with
    [num_killed_request = 0] and [instance_load_migrate] strictly below
    the policy's [migrate_out_load_threshold]; this holds for the three
    policies, [balanced] and [prefill_constrained] among them. *)
Theorem check_migrate_destination w gs pairs w' gs' s d :
  registry_ok w ->
  GS.check_migrate w gs = Ok (pairs, w', gs') ->
  (s, d) ∈ pairs ->
  exists l, dict_get d (registry w) = Some l
    /\ num_killed_request (deref w l) = 0%Z
    /\ (instance_load_migrate (deref w l)
        <? policy_migrate_out_load_threshold (policy_of gs))%float = true.
Proof.
  intros Hok Hc Hsd.
  destruct (pair_entries _ _ _ _ _ _ _ Hok Hc Hsd) as (l & r & Hlr & Hl & _).
  destruct (emitted_zipped _ _ _ _ Hlr) as [Hz _].
  destruct (zipped_elem _ _ _ _ _ _ Hz) as (_ & _ & Hin & _).
  unfold is_migrate_in in Hin. apply andb_true_iff in Hin as [K L].
  exists l. split; [done|]. split; [by apply Z.eqb_eq | done].
Qed.

(** C2. Under [balanced], each pair [(s, d)] that [check_migrate] returns
    is such that either the destination's load after one more running
    request and [num_block_last_running_request] fewer free blocks is at
    most the threshold, and the gap between the two loads after the
    migration is strictly positive and strictly below the gap before it;
    or the destination's [instance_load_migrate] is minus infinity. *)
Theorem balanced_pair_gated w gs pairs w' gs' s d :
  registry_ok w ->
  policy_class (policy_of gs) = Balanced ->
  GS.check_migrate w gs = Ok (pairs, w', gs') ->
  (s, d) ∈ pairs ->
  exists l r, dict_get d (registry w) = Some l
    /\ dict_get s (registry w) = Some r
    /\ let thr := policy_migrate_out_load_threshold (policy_of gs) in
       let calc := policy_instance_load_calculator (policy_of gs) in
       let left_after := load_after_migrate calc true (deref w l) in
       let right_after := load_after_migrate calc false (deref w r) in
       ((left_after <=? thr)%float = true
        /\ (0 <? right_after - left_after)%float = true
        /\ (right_after - left_after
            <? instance_load_migrate (deref w r)
               - instance_load_migrate (deref w l))%float = true)
       \/ (instance_load_migrate (deref w l) =? neg_infinity)%float = true.
Proof.
  intros Hok Hcls Hc Hsd.
  destruct (pair_entries _ _ _ _ _ _ _ Hok Hc Hsd) as (l & r & Hlr & Hl & Hr).
  exists l, r. split; [done|]. split; [done|].
  destruct (emitted_zipped _ _ _ _ Hlr) as [Hz Hacc].
  destruct (zipped_elem _ _ _ _ _ _ Hz) as (_ & _ & Hin & _).
  specialize (Hacc Hcls). unfold accepted, Balanced_accepts in Hacc.
  cbn [fst snd] in Hacc. cbv zeta.
  apply andb_true_iff in Hacc as [Hgate Hacc].
  apply orb_true_iff in Hacc as [Hgap|Hinf]; [left | by right].
  apply andb_true_iff in Hgap as [Hpos Hless].
  split; [|by split].
  apply negb_true_iff in Hgate.
  apply andb_true_iff in Hin as [_ Hthr].
  apply F.not_gt_le; [| |exact Hgate].
  - intros Hnan. apply (F.sub_nan_r
      (load_after_migrate (policy_instance_load_calculator (policy_of gs))
         false (deref w r))) in Hnan.
    by apply F.ltb_not_nan in Hpos as [_ ?].
  - by apply F.ltb_not_nan in Hthr as [_ ?].
Qed.

(** C10. Under [balanced], a registered instance whose load after one
    more running request would exceed the threshold is the destination of
    no returned pair, whatever its [instance_load_migrate], minus
    infinity included: the threshold test comes first in the loop. *)
Theorem balanced_gate_before_sentinel w gs pairs w' gs' x s :
  registry_ok w ->
  policy_class (policy_of gs) = Balanced ->
  GS.check_migrate w gs = Ok (pairs, w', gs') ->
  x ∈ dict_values (registry w) ->
  (policy_migrate_out_load_threshold (policy_of gs)
   <? load_after_migrate (policy_instance_load_calculator (policy_of gs))
        true (deref w x))%float = true ->
  (s, instance_id (deref w x)) ∉ pairs.
Proof.
  intros Hok Hcls Hc Hx Hgt Hsd.
  destruct (pair_entries _ _ _ _ _ _ _ Hok Hc Hsd) as (l & r & Hlr & Hl & _).
  rewrite (registry_value_entry w x Hok Hx) in Hl. injection Hl as <-.
  destruct (emitted_zipped _ _ _ _ Hlr) as [_ Hacc].
  specialize (Hacc Hcls). unfold accepted, Balanced_accepts in Hacc.
  cbn [fst snd] in Hacc. apply andb_true_iff in Hacc as [Hgate _].
  rewrite Hgt in Hgate. discriminate.
Qed.

(** C9. [check_migrate] does not raise and is read-only on the registry:
    the registry dict, [instance_id_set] and [num_instance] are the same
    afterwards, and every object that was in the store is unchanged at
    its address; the only new objects are the copies that the load
    projection of [balanced] made. *)
Theorem check_migrate_read_only w gs :
  exists pairs w' gs',
    GS.check_migrate w gs = Ok (pairs, w', gs')
    /\ registry w' = registry w
    /\ instance_id_set gs' = instance_id_set gs
    /\ num_instance gs' = num_instance gs
    /\ instance_info gs' = instance_info gs
    /\ (exists copies, objects w' = objects w ++ copies)
    /\ (forall k r, dict_get k (registry w) = Some r -> valid_ref w r ->
          dict_get k (registry w') = Some r /\ deref w' r = deref w r).
Proof.
  destruct (GS_check_migrate_eq w gs) as (gs' & E & N & S & I & _).
  pose proof (policy_check_migrate_extends (policy_of gs) (sorted_registry w) w)
    as Ext.
  unfold policy_of in Ext.
  eexists _, _, gs'. split; [exact E|].
  pose proof Ext as [R [copies C]].
  split; [exact R|]. split; [exact S|]. split; [exact N|].
  split; [exact I|]. split; [by exists copies|].
  intros k r Hk V. split.
  - by rewrite R.
  - by apply extends_deref.
Qed.

End Pairs.

(** ** Policy resolution *)

Lemma registry_names :
  _POLICY_REGISTRY !! "balanced" = Some Balanced
  /\ _POLICY_REGISTRY !! "prefill_constrained" = Some PrefillConstrained
  /\ _POLICY_REGISTRY !! "prefill_relaxed" = Some PrefillRelaxed.
Proof. repeat split; reflexivity. Qed.

Lemma registry_unknown name :
  name ∉ ["balanced"; "prefill_constrained"; "prefill_relaxed"] ->
  _POLICY_REGISTRY !! name = None.
Proof.
  intros H. rewrite !not_elem_of_cons in H. destruct H as (H1 & H2 & H3 & _).
  unfold _POLICY_REGISTRY.
  rewrite lookup_insert_ne by done. rewrite lookup_insert_ne by done.
  by apply lookup_singleton_ne.
Qed.

Lemma check_migrate_of_policy name thr calc w :
  check_migrate_of name thr calc w
  = (p ← (if negb (enable_prefill_migrate calc)
          then get_policy "balanced" thr calc
          else get_policy name thr calc);
     Ok (policy_check_migrate p (sorted_registry w) w)).
Proof.
  unfold check_migrate_of, MS.init.
  destruct (if negb (enable_prefill_migrate calc) then _ else _) as [p|];
    [|reflexivity].
  simpl. unfold MS.check_migrate, MS._sort_instance_infos; simpl.
  unfold sorted_registry, sorted.
  by destruct (policy_check_migrate p _ w).
Qed.

(** C3. With [enable_prefill_migrate] false, a [MigrationScheduler] built
    with any [check_migrate_policy] is the one built with ['balanced'],
    and its [check_migrate] returns what [Balanced.check_migrate] returns
    on the sorted registry; with [enable_prefill_migrate] true, the class
    registered under the configured name is the one that answers. *)
Theorem policy_resolution name thr lm formula w :
  let off := mkCalculator lm false formula in
  let on := mkCalculator lm true formula in
  MS.init name thr off = MS.init "balanced" thr off
  /\ check_migrate_of name thr off w
     = Ok (Balanced_check_migrate (mkPolicy Balanced thr off)
             (sorted_registry w) w)
  /\ match _POLICY_REGISTRY !! name with
     | Some cls =>
         check_migrate_of name thr on w
         = Ok (policy_check_migrate (mkPolicy cls thr on) (sorted_registry w) w)
     | None => check_migrate_of name thr on w = Raise (KeyError name)
     end
  /\ check_migrate_of "balanced" thr on w
     = Ok (Balanced_check_migrate (mkPolicy Balanced thr on)
             (sorted_registry w) w)
  /\ check_migrate_of "prefill_constrained" thr on w
     = Ok (PrefillConstrained_check_migrate (mkPolicy PrefillConstrained thr on)
             (sorted_registry w) w)
  /\ check_migrate_of "prefill_relaxed" thr on w
     = Ok (PrefillRelaxed_check_migrate (mkPolicy PrefillRelaxed thr on)
             (sorted_registry w) w).
Proof.
  intros off on. destruct registry_names as (Hb & Hc & Hr).
  rewrite !check_migrate_of_policy. unfold get_policy; simpl.
  rewrite Hb, Hc, Hr. simpl.
  repeat split.
  by destruct (_POLICY_REGISTRY !! name).
Qed.

(** C6 (as amended). A [check_migrate_policy] outside the three registered
    names makes the construction raise [KeyError] when
    [enable_prefill_migrate] is true; when it is false the name is not
    looked up and the construction succeeds, with [balanced]. *)
Theorem unknown_policy_name name thr lm formula :
  name ∉ ["balanced"; "prefill_constrained"; "prefill_relaxed"] ->
  MS.init name thr (mkCalculator lm true formula) = Raise (KeyError name)
  /\ exists ms, MS.init name thr (mkCalculator lm false formula) = Ok ms
       /\ policy_class (check_migrate_policy ms) = Balanced.
Proof.
  intros H. apply registry_unknown in H.
  destruct registry_names as (Hb & _).
  unfold MS.init, get_policy; simpl. rewrite H, Hb. simpl.
  split; [reflexivity|]. by eexists.
Qed.

(** ** The registry under heartbeats and scaling *)

Section Registry.

Context {DS SS : Type} `{!DispatchSchedulerOps DS} `{!ScaleSchedulerOps SS}.
Variable load_formula : string -> bool -> InstanceInfo -> string -> float.

Implicit Types (gs : GlobalScheduler DS SS) (w : Store).

Lemma update_instance_infos_app l1 l2 w gs :
  GS.update_instance_infos (l1 ++ l2) w gs
  = GS.update_instance_infos l2 (GS.update_instance_infos l1 w gs) gs.
Proof. unfold GS.update_instance_infos. apply fold_left_app. Qed.

(** C4 (as amended). [update_instance_infos] adds no key and removes no
    key, whatever the batch (the model is a total function: the call
    does not raise).  For an object [info] of the batch whose id is
    registered, that occurs once in the batch and is followed there by no
    object with the same id: afterwards the entry of its id is this
    object, with [instance_load_dispatch_scale] computed on the object as
    received, [instance_load_migrate] computed on the object once it
    carries that first load, and the other attributes as received. *)
Theorem update_instance_infos_entry gs w batch :
  let w' := GS.update_instance_infos batch w gs in
  let calc := instance_load_calculator gs in
  dict_keys (registry w') = dict_keys (registry w)
  /\ forall pre info post,
       batch = pre ++ info :: post ->
       valid_ref w info ->
       dict_contains (instance_id (deref w info)) (registry w) = true ->
       info ∉ pre ->
       (forall j, j ∈ post ->
          instance_id (deref w j) <> instance_id (deref w info)) ->
       dict_get (instance_id (deref w info)) (registry w') = Some info
       /\ deref w' info = refresh_loads calc (deref w info)
       /\ instance_load_dispatch_scale (deref w' info)
          = compute_instance_load calc (deref w info) "dispatch"
       /\ instance_load_migrate (deref w' info)
          = compute_instance_load calc
              (set_instance_load_dispatch_scale
                 (compute_instance_load calc (deref w info) "dispatch")
                 (deref w info)) "migrate".
Proof.
  intros w' calc. split.
  { apply (update_instance_infos_frame gs batch w). }
  intros pre info post -> V C Hpre Hpost.
  assert (D : dict_get (instance_id (deref w info)) (registry w') = Some info
              /\ deref w' info = refresh_loads calc (deref w info)).
  { unfold w'. rewrite update_instance_infos_app.
    set (w1 := GS.update_instance_infos pre w gs).
    change (GS.update_instance_infos (info :: post) w1 gs)
      with (GS.update_instance_infos post (GS.update_instance_info gs w1 info) gs).
    set (w2 := GS.update_instance_info gs w1 info).
    destruct (update_instance_infos_frame gs pre w)
      as (K1 & L1 & I1 & D1 & _ & _). fold w1 in K1, L1, I1, D1.
    assert (V1 : valid_ref w1 info) by (unfold valid_ref; by rewrite L1).
    assert (C1 : dict_contains (instance_id (deref w1 info)) (registry w1) = true).
    { rewrite I1. apply dict_contains_true. rewrite K1.
      by apply dict_contains_true. }
    destruct (update_instance_info_known gs w1 info V1 C1) as [D2 R2].
    fold w2 in D2, R2.
    destruct (update_instance_info_frame gs w1 info) as (_ & _ & I2 & _).
    fold w2 in I2.
    destruct (update_instance_infos_frame gs post w2)
      as (_ & _ & _ & D3 & _ & G3).
    assert (Hinfo : info ∉ post) by (intros Hin; by apply (Hpost info Hin)).
    split.
    - rewrite G3.
      + rewrite R2, dict_get_set, I1. by rewrite decide_True.
      + intros x Hx. rewrite I2, I1. by apply Hpost.
    - rewrite (D3 info Hinfo), D2. by rewrite (D1 info Hpre). }
  destruct D as [D1 D2]. split; [exact D1|]. split; [exact D2|].
  rewrite D2. split; reflexivity.
Qed.

(** C5. In every state that the public operations reach from a new
    scheduler, [num_instance], the size of [instance_id_set] and the
    number of entries of [instance_info] agree, and [instance_id_set] is
    the set of keys of [instance_info]. *)
Theorem registry_counts_agree w gs :
  reachable load_formula w gs ->
  num_instance gs = size (instance_id_set gs)
  /\ size (instance_id_set gs) = length (deref_dict w (instance_info gs))
  /\ instance_id_set gs
     = list_to_set (dict_keys (deref_dict w (instance_info gs))).
Proof.
  intros R. destruct (reachable_inv load_formula w gs R)
    as ([ND _] & Hset & Hnum & _).
  destruct (instance_info gs); simpl.
  split; [exact Hnum|]. split; [|exact Hset].
  rewrite Hset, size_list_to_set by done.
  unfold dict_keys. by rewrite length_fmap.
Qed.

(** C7 (as amended). For an id that is not registered, [scale_up([id])]
    followed by [scale_down([id])] does not raise and leaves the
    [instance_info] dict, [instance_id_set] and [num_instance] as they
    were before the [scale_up]. *)
Theorem scale_up_then_scale_down w gs id :
  GS_inv w gs ->
  dict_contains id (registry w) = false ->
  exists w2 gs2,
    GS.scale_down (Str id) (GS.scale_up (Str id) w gs).1
      (GS.scale_up (Str id) w gs).2 = Ok (w2, gs2)
    /\ registry w2 = registry w
    /\ instance_id_set gs2 = instance_id_set gs
    /\ num_instance gs2 = num_instance gs.
Proof.
  clear load_formula. intros (_ & Hset & Hnum & Hms) C.
  unfold GS.scale_up, GS.scale_down. cbn [GS.instance_ids_of fold_left].
  rewrite scale_up_one_eq, C. cbn [fst snd].
  unfold GS.scale_down_one. cbn -[GS._remove_instance dict_del dict_contains].
  destruct (instance_info gs). cbn [deref_dict registry].
  assert (C' : dict_contains id (registry w ++ [(id, length (objects w))]) = true).
  { apply dict_contains_true. unfold dict_keys. rewrite fmap_app.
    apply elem_of_app. right. by left. }
  rewrite C', (dict_del_snoc _ _ _ C).
  cbn [mbind result_bind].
  assert (Hid : id ∉ instance_id_set gs).
  { rewrite Hset, elem_of_list_to_set. by apply dict_contains_false. }
  assert (Hback : set_add id (instance_id_set gs) ∖ {[id]} = instance_id_set gs).
  { unfold set_add. apply set_eq. intros x.
    rewrite elem_of_difference, elem_of_union, !elem_of_singleton.
    split; [tauto|]. intros Hx. split; [tauto|]. by intros ->. }
  destruct (remove_instance_ok (GS._add_instance id gs) id)
    as (gs2 & -> & S1 & S2 & _).
  - simpl. unfold set_add. apply elem_of_union. left. by apply elem_of_singleton.
  - simpl. by rewrite Hms.
  - simpl in S1. rewrite Hback in S1.
    eexists _, gs2. split; [reflexivity|]. simpl.
    split; [reflexivity|]. split; [exact S1|]. by rewrite S2, S1.
Qed.

End Registry.

(** ** More on the pairs of [check_migrate] *)

Lemma filter_sublist {A} (f : A -> bool) (l : list A) :
  List.filter f l `sublist_of` l.
Proof.
  induction l as [|x l IH]; simpl; [constructor|].
  destruct (f x); by constructor.
Qed.

Lemma combine_fst_sublist {A B} (l : list A) (r : list B) :
  (combine l r).*1 `sublist_of` l.
Proof.
  revert r. induction l as [|x l IH]; intros [|y r]; simpl;
    try apply sublist_nil_l.
  constructor. apply IH.
Qed.

Lemma combine_snd_sublist {A B} (l : list A) (r : list B) :
  (combine l r).*2 `sublist_of` r.
Proof.
  revert r. induction l as [|x l IH]; intros [|y r]; simpl;
    try apply sublist_nil_l.
  constructor. apply IH.
Qed.

Lemma combine_length_le {A B} (l : list A) (r : list B) :
  length (combine l r) <= length l /\ length (combine l r) <= length r.
Proof. rewrite length_combine. lia. Qed.

(** The two filters of [Balanced] and [PrefillConstrained] keep disjoint
    parts of the list. *)
Lemma left_right_length thr w l :
  length (left_instance_infos thr w l) + length (right_instance_infos thr w l)
  <= length l.
Proof.
  unfold left_instance_infos, right_instance_infos.
  rewrite filter_rev, length_rev.
  induction l as [|x l IH]; simpl; [lia|].
  pose proof (in_out_exclusive thr w x) as E.
  destruct (is_migrate_in thr w x); simpl.
  - rewrite E by done. lia.
  - destruct (is_migrate_out thr w x); simpl; lia.
Qed.

Lemma registry_values_NoDup w : registry_ok w -> NoDup (dict_values (registry w)).
Proof.
  intros [ND H]. unfold dict_values, dict_keys in *.
  induction (registry w) as [|[k r] d IH]; simpl in *; [constructor|].
  apply NoDup_cons in ND as [Hk ND]. apply NoDup_cons. split.
  - intros Hr. apply list_elem_of_fmap in Hr as ([k' r'] & E & Hin).
    simpl in E. subst r'. apply Hk.
    destruct (H k r) as [_ I1]; [by left|].
    destruct (H k' r) as [_ I2]; [by right|].
    apply list_elem_of_fmap. exists (k', r). split; [simpl; congruence | done].
  - apply IH; [done|]. intros k' r' Hin. apply H. by right.
Qed.

Lemma sorted_registry_NoDup w : registry_ok w -> NoDup (sorted_registry w).
Proof.
  intros Hok. unfold sorted_registry. rewrite sorted_perm.
  by apply registry_values_NoDup.
Qed.

(** Within the registry an id names one object. *)
Lemma registry_id_inj w x y :
  registry_ok w ->
  x ∈ dict_values (registry w) -> y ∈ dict_values (registry w) ->
  instance_id (deref w x) = instance_id (deref w y) -> x = y.
Proof.
  intros Hok Hx Hy E.
  pose proof (registry_value_entry w x Hok Hx) as Ex.
  pose proof (registry_value_entry w y Hok Hy) as Ey.
  rewrite E in Ex. congruence.
Qed.

Lemma emitted_sublist p w l :
  emitted p w l
  `sublist_of` zipped (policy_class p) (policy_migrate_out_load_threshold p) w l.
Proof.
  unfold emitted. destruct (policy_class p); [apply filter_sublist|done|done].
Qed.

Lemma zipped_sides cls thr w l :
  NoDup l ->
  NoDup (zipped cls thr w l).*1 /\ NoDup (zipped cls thr w l).*2
  /\ (forall x, x ∈ (zipped cls thr w l).*1 -> x ∈ l)
  /\ (forall y, y ∈ (zipped cls thr w l).*2 -> y ∈ l).
Proof.
  intros ND.
  assert (NL : NoDup (left_instance_infos thr w l))
    by (eapply sublist_NoDup; [|apply filter_sublist]; done).
  assert (NV : NoDup (rev l)) by by rewrite <- Permutation_rev.
  assert (NR : NoDup (right_instance_infos thr w l))
    by (eapply sublist_NoDup; [|apply filter_sublist]; done).
  assert (HL : forall x, x ∈ left_instance_infos thr w l -> x ∈ l).
  { intros x Hx. eapply elem_of_sublist; [exact Hx | apply filter_sublist]. }
  assert (HV : forall x, x ∈ rev l -> x ∈ l).
  { intros x Hx. apply list_elem_of_In, in_rev in Hx. by apply list_elem_of_In. }
  assert (HR : forall x, x ∈ right_instance_infos thr w l -> x ∈ l).
  { intros x Hx. apply HV. eapply elem_of_sublist; [exact Hx | apply filter_sublist]. }
  destruct cls; simpl; (split; [|split; [|split]]);
    try (eapply sublist_NoDup; [|apply combine_fst_sublist]; assumption);
    try (eapply sublist_NoDup; [|apply combine_snd_sublist]; assumption);
    intros x Hx;
    try (apply HL; eapply elem_of_sublist; [exact Hx | apply combine_fst_sublist]);
    try (apply HR; eapply elem_of_sublist; [exact Hx | apply combine_snd_sublist]);
    try (apply HV; eapply elem_of_sublist; [exact Hx | apply combine_snd_sublist]).
Qed.

Section MorePairs.

Context {DS SS : Type} `{!DispatchSchedulerOps DS} `{!ScaleSchedulerOps SS}.

Implicit Types (gs : GlobalScheduler DS SS) (w : Store).

(** X1. Both ids of every returned pair are registered: they are keys
    of [instance_info] and members of [instance_id_set]. *)
Theorem check_migrate_pairs_registered w gs pairs w' gs' s d :
  GS_inv w gs ->
  GS.check_migrate w gs = Ok (pairs, w', gs') ->
  (s, d) ∈ pairs ->
  s ∈ dict_keys (registry w) /\ d ∈ dict_keys (registry w)
  /\ s ∈ instance_id_set gs /\ d ∈ instance_id_set gs.
Proof.
  intros (Hok & Hset & _) Hc Hsd.
  destruct (pair_entries _ _ _ _ _ _ _ Hok Hc Hsd) as (l & r & _ & Hl & Hr).
  assert (Ks : s ∈ dict_keys (registry w)).
  { destruct (decide (s ∈ dict_keys (registry w))) as [|N]; [done|].
    apply dict_get_None in N. congruence. }
  assert (Kd : d ∈ dict_keys (registry w)).
  { destruct (decide (d ∈ dict_keys (registry w))) as [|N]; [done|].
    apply dict_get_None in N. congruence. }
  rewrite Hset, !elem_of_list_to_set. done.
Qed.

(** X2. Under [balanced] and [prefill_constrained] the source of every
    returned pair is a registered instance with a killed request or with
    a load above the threshold. *)
Theorem check_migrate_source w gs pairs w' gs' s d :
  registry_ok w ->
  policy_class (policy_of gs) <> PrefillRelaxed ->
  GS.check_migrate w gs = Ok (pairs, w', gs') ->
  (s, d) ∈ pairs ->
  exists r, dict_get s (registry w) = Some r
    /\ ((0 < num_killed_request (deref w r))%Z
        \/ (policy_migrate_out_load_threshold (policy_of gs)
            <? instance_load_migrate (deref w r))%float = true).
Proof.
  intros Hok Hcls Hc Hsd.
  destruct (pair_entries _ _ _ _ _ _ _ Hok Hc Hsd) as (l & r & Hlr & _ & Hr).
  destruct (emitted_zipped _ _ _ _ Hlr) as [Hz _].
  destruct (zipped_elem _ _ _ _ _ _ Hz) as (_ & _ & _ & Hout).
  specialize (Hout Hcls). unfold is_migrate_out in Hout.
  exists r. split; [done|].
  apply orb_true_iff in Hout as [K|L]; [left | by right].
  by apply Z.ltb_lt.
Qed.

(** X3. No instance is the source of two returned pairs, and none is
    the destination of two. *)
Theorem check_migrate_once_per_side w gs pairs w' gs' :
  registry_ok w ->
  GS.check_migrate w gs = Ok (pairs, w', gs') ->
  NoDup pairs.*1 /\ NoDup pairs.*2.
Proof.
  intros Hok Hc. rewrite (check_migrate_pairs _ _ _ _ _ Hok Hc).
  set (p := policy_of gs). set (l := sorted_registry w).
  pose proof (sorted_registry_NoDup w Hok) as ND. fold l in ND.
  destruct (zipped_sides (policy_class p) (policy_migrate_out_load_threshold p)
              w l ND) as (N1 & N2 & H1 & H2).
  pose proof (emitted_sublist p w l) as Sub.
  assert (Hin : forall x, x ∈ l -> x ∈ dict_values (registry w)).
  { intros x Hx. unfold l, sorted_registry in Hx. by apply elem_of_sorted in Hx. }
  assert (E1 : (map (pair_ids w) (emitted p w l)).*1
               = (fun x => instance_id (deref w x)) <$> (emitted p w l).*2).
  { rewrite <- !list_fmap_compose. reflexivity. }
  assert (E2 : (map (pair_ids w) (emitted p w l)).*2
               = (fun x => instance_id (deref w x)) <$> (emitted p w l).*1).
  { rewrite <- !list_fmap_compose. reflexivity. }
  rewrite E1, E2. split.
  - apply NoDup_fmap_2_strong.
    + intros x y Hx Hy. apply registry_id_inj; [done| |]; apply Hin, H2;
        (eapply elem_of_sublist; [eassumption | by apply fmap_sublist]).
    + eapply sublist_NoDup; [exact N2 | by apply fmap_sublist].
  - apply NoDup_fmap_2_strong.
    + intros x y Hx Hy. apply registry_id_inj; [done| |]; apply Hin, H1;
        (eapply elem_of_sublist; [eassumption | by apply fmap_sublist]).
    + eapply sublist_NoDup; [exact N1 | by apply fmap_sublist].
Qed.

(** X4. [check_migrate] returns at most as many pairs as there are
    instances, and under [balanced] and [prefill_constrained] at most
    half as many: with fewer than two instances they return no pair. *)
Theorem check_migrate_pairs_bound w gs pairs w' gs' :
  GS_inv w gs ->
  GS.check_migrate w gs = Ok (pairs, w', gs') ->
  length pairs <= num_instance gs
  /\ (policy_class (policy_of gs) <> PrefillRelaxed ->
      2 * length pairs <= num_instance gs).
Proof.
  intros (Hok & Hset & Hnum & _) Hc.
  rewrite (check_migrate_pairs _ _ _ _ _ Hok Hc), length_map.
  assert (Hn : num_instance gs = length (sorted_registry w)).
  { rewrite Hnum, Hset, size_list_to_set by apply Hok.
    unfold sorted_registry. rewrite sorted_perm.
    unfold dict_keys, dict_values. by rewrite !length_fmap. }
  set (p := policy_of gs). set (l := sorted_registry w). fold l in Hn.
  pose proof (sublist_length _ _ (emitted_sublist p w l)) as Le.
  pose proof (left_right_length (policy_migrate_out_load_threshold p) w l) as LR.
  assert (Hz : length (zipped (policy_class p)
                         (policy_migrate_out_load_threshold p) w l)
               <= length (left_instance_infos
                            (policy_migrate_out_load_threshold p) w l)
               /\ (policy_class p <> PrefillRelaxed ->
                   length (zipped (policy_class p)
                             (policy_migrate_out_load_threshold p) w l)
                   <= length (right_instance_infos
                                (policy_migrate_out_load_threshold p) w l))).
  { destruct (policy_class p); simpl; rewrite length_combine;
      (split; [lia | intros; try lia; congruence]). }
  destruct Hz as [Hz1 Hz2]. split.
  - lia.
  - intros Hcls. specialize (Hz2 Hcls). lia.
Qed.

End MorePairs.

(** X5. On the same sorted list and store, with the same threshold,
    what [Balanced.check_migrate] returns is a sublist of what
    [PrefillConstrained.check_migrate] returns: the projected-load tests
    only remove pairs. *)
Theorem balanced_within_constrained thr calc calc' l w :
  Forall (valid_ref w) l ->
  (Balanced_check_migrate (mkPolicy Balanced thr calc) l w).1
  `sublist_of`
  (PrefillConstrained_check_migrate (mkPolicy PrefillConstrained thr calc') l w).1.
Proof.
  intros V.
  destruct (policy_check_migrate_eq (mkPolicy Balanced thr calc) l w V)
    as (w1 & _ & E1).
  destruct (policy_check_migrate_eq (mkPolicy PrefillConstrained thr calc') l w V)
    as (w2 & _ & E2).
  unfold policy_check_migrate in E1, E2. simpl in E1, E2.
  rewrite E1, E2. simpl. apply (fmap_sublist (pair_ids w)).
  apply (emitted_sublist (mkPolicy Balanced thr calc)).
Qed.

(** ** [check_migrate] twice *)

Lemma insert_by_ext {A} (key key' : A -> float) x l :
  key x = key' x -> (forall y, y ∈ l -> key y = key' y) ->
  insert_by key x l = insert_by key' x l.
Proof.
  intros Hx. induction l as [|y l IH]; intros H; simpl; [done|].
  rewrite <- Hx, <- (H y) by by left.
  destruct (key y <? key x)%float; [|done].
  f_equal. apply IH. intros z Hz. apply H. by right.
Qed.

Lemma sorted_ext {A} (l : list A) (key key' : A -> float) reverse :
  (forall y, y ∈ l -> key y = key' y) ->
  sorted l key reverse = sorted l key' reverse.
Proof.
  assert (P : forall l' : list A, (forall y, y ∈ l' -> key y = key' y) ->
                foldr (insert_by key) [] l' = foldr (insert_by key') [] l').
  { induction l' as [|x l' IH]; intros H; simpl; [done|].
    rewrite IH by (intros y Hy; apply H; by right).
    apply insert_by_ext; [apply H; by left|].
    intros y Hy. apply H. right.
    by apply (elem_of_sorted l' key' false y). }
  intros H. unfold sorted. destruct reverse; [|by apply P].
  f_equal. apply P. intros y Hy. apply H.
  apply list_elem_of_In, in_rev in Hy. by apply list_elem_of_In.
Qed.

(** The pairs of a policy depend on the store only through the objects
    of the list. *)
Lemma policy_view_ext p w w1 l :
  (forall x, x ∈ l -> deref w1 x = deref w x) ->
  map (pair_ids w1) (emitted p w1 l) = map (pair_ids w) (emitted p w l).
Proof.
  intros D. set (thr := policy_migrate_out_load_threshold p).
  assert (DR : forall x, x ∈ rev l -> deref w1 x = deref w x).
  { intros x Hx. apply D.
    apply list_elem_of_In, in_rev in Hx. by apply list_elem_of_In. }
  assert (L : left_instance_infos thr w1 l = left_instance_infos thr w l).
  { apply filter_ext_in. intros x Hx. unfold is_migrate_in.
    by rewrite D by by apply list_elem_of_In. }
  assert (R : right_instance_infos thr w1 l = right_instance_infos thr w l).
  { apply filter_ext_in. intros x Hx. unfold is_migrate_out.
    by rewrite DR by by apply list_elem_of_In. }
  assert (Z : forall cls, zipped cls thr w1 l = zipped cls thr w l).
  { intros cls. unfold zipped. by rewrite L, R. }
  assert (DZ : forall cls x y, (x, y) ∈ zipped cls thr w l ->
                 deref w1 x = deref w x /\ deref w1 y = deref w y).
  { intros cls x y H. destruct (zipped_elem _ _ _ _ _ _ H) as (Hx & Hy & _).
    split; by apply D. }
  assert (E : emitted p w1 l = emitted p w l).
  { unfold emitted. fold thr. destruct (policy_class p); rewrite ?Z; [|done|done].
    apply filter_ext_in. intros [x y] H. apply list_elem_of_In in H.
    destruct (DZ _ _ _ H) as [Dx Dy].
    unfold accepted. simpl. by rewrite Dx, Dy. }
  rewrite E. apply map_ext_in. intros [x y] H. apply list_elem_of_In in H.
  destruct (emitted_zipped _ _ _ _ H) as [Hz _].
  destruct (DZ _ _ _ Hz) as [Dx Dy].
  unfold pair_ids. simpl. by rewrite Dx, Dy.
Qed.

Lemma sorted_registry_extends w w1 :
  registry_ok w -> extends w w1 -> sorted_registry w1 = sorted_registry w.
Proof.
  intros Hok E. unfold sorted_registry. rewrite (proj1 E).
  apply sorted_ext. intros y Hy. f_equal.
  apply extends_deref; [done|].
  destruct Hok as [_ H]. unfold dict_values in Hy.
  apply list_elem_of_fmap in Hy as ([k r] & -> & Hkr). by apply (H k r).
Qed.

Section Twice.

Context {DS SS : Type} `{!DispatchSchedulerOps DS} `{!ScaleSchedulerOps SS}.

Implicit Types (gs : GlobalScheduler DS SS) (w : Store).

(** X6. [check_migrate] called again right after [check_migrate] returns
    the same list of pairs: the copies that the first call left in the
    store do not show in the second. *)
Theorem check_migrate_twice w gs pairs w1 gs1 :
  registry_ok w ->
  GS.check_migrate w gs = Ok (pairs, w1, gs1) ->
  exists w2 gs2, GS.check_migrate w1 gs1 = Ok (pairs, w2, gs2).
Proof.
  intros Hok Hc.
  destruct (GS_check_migrate_eq w gs) as (gs0 & E & _ & _ & _ & _ & P).
  pose proof Hc as Hc'. rewrite E in Hc'. injection Hc' as _ Hw1 ->.
  assert (Ext : extends w w1)
    by (rewrite <- Hw1; apply policy_check_migrate_extends).
  pose proof (registry_ok_extends w w1 Ext Hok) as Hok1.
  destruct (GS_check_migrate_eq w1 gs1) as (gs2 & E2 & _).
  eexists _, gs2. rewrite E2. f_equal. f_equal. f_equal.
  pose proof (check_migrate_pairs w1 gs1 _ _ _ Hok1 E2) as P1.
  rewrite P1, (check_migrate_pairs w gs _ _ _ Hok Hc).
  unfold policy_of. rewrite P, (sorted_registry_extends w w1 Hok Ext).
  apply policy_view_ext. intros x Hx. apply extends_deref; [done|].
  pose proof (registry_values_valid w Hok) as V. rewrite Forall_forall in V.
  by apply V.
Qed.

End Twice.

(** ** Heartbeats of unknown instances *)

Section Stale.

Context {DS SS : Type}.
Variable gs : GlobalScheduler DS SS.

(** X7. [update_instance_infos] leaves alone every object whose id is
    not registered, whether it is in the batch or not: none of its
    attributes changes, and it does not enter the registry. *)
Theorem update_ignores_unregistered batch : forall w j,
  dict_contains (instance_id (deref w j)) (registry w) = false ->
  let w' := GS.update_instance_infos batch w gs in
  deref w' j = deref w j
  /\ (j ∉ dict_values (registry w) -> j ∉ dict_values (registry w')).
Proof.
  unfold GS.update_instance_infos.
  induction batch as [|r batch IH]; intros w j C; cbn [fold_left]; [done|].
  destruct (update_instance_info_frame gs w r) as (K1 & _ & I1 & D1 & E1 & _).
  set (w1 := GS.update_instance_info gs w r) in *.
  assert (S1 : deref w1 j = deref w j
               /\ (j ∉ dict_values (registry w) -> j ∉ dict_values (registry w1))).
  { destruct (decide (j = r)) as [->|Hne].
    - unfold w1. by rewrite (update_instance_info_unknown gs w r C).
    - split; [by apply D1|]. intros Hj Hin. apply Hj.
      unfold dict_values in *.
      apply list_elem_of_fmap in Hin as ([k x] & -> & Hkx). simpl in *.
      apply E1 in Hkx as [Hkx|[-> _]]; [|done].
      apply list_elem_of_fmap. by exists (k, x). }
  assert (C1 : dict_contains (instance_id (deref w1 j)) (registry w1) = false).
  { apply dict_contains_false. rewrite I1, K1. by apply dict_contains_false. }
  destruct (IH w1 j C1) as [D2 V2]. destruct S1 as [D V]. split.
  - by rewrite D2.
  - intros Hj. apply V2, V, Hj.
Qed.

End Stale.

(** ** Reachable registries *)

Section Entries.

Context {DS SS : Type} `{!DispatchSchedulerOps DS} `{!ScaleSchedulerOps SS}.
Variable load_formula : string -> bool -> InstanceInfo -> string -> float.

(** X8. In every reachable state each entry of [instance_info] refers
    to an object whose [instance_id] is the entry's key, and two entries
    never share an object. *)
Theorem registry_entries_carry_key w (gs : GlobalScheduler DS SS) :
  reachable load_formula w gs ->
  (forall k r, dict_get k (deref_dict w (instance_info gs)) = Some r ->
     valid_ref w r /\ instance_id (deref w r) = k)
  /\ NoDup (dict_values (deref_dict w (instance_info gs))).
Proof.
  intros R. destruct (reachable_inv load_formula w gs R) as (Hok & _).
  destruct (instance_info gs); simpl. split.
  - intros k r Hk. destruct Hok as [ND H]. apply H. by apply dict_get_elem.
  - by apply registry_values_NoDup.
Qed.

End Entries.

(** ** Scaling up and down *)

Lemma dict_del_filter k d d' :
  NoDup (dict_keys d) -> dict_del k d = Ok d' ->
  d' = filter (fun kr => kr.1 <> k) d.
Proof.
  intros ND Hd. destruct (dict_del_split _ _ _ Hd) as (d1 & v & d2 & -> & -> & Hk1).
  unfold dict_keys in ND. rewrite fmap_app, fmap_cons in ND.
  apply NoDup_app in ND as (_ & _ & ND2). apply NoDup_cons in ND2 as [Hk2 _].
  unfold dict in *.
  rewrite !filter_app, filter_cons_False by (simpl; tauto).
  assert (F : forall l : list (string * ref),
             k ∉ l.*1 -> filter (fun kr => kr.1 <> k) l = l).
  { induction l as [|[k0 v0] l IH]; intros H; [done|].
    simpl in H. apply not_elem_of_cons in H as [Hne H].
    rewrite filter_cons_True by (simpl; congruence). f_equal. by apply IH. }
  by rewrite !F.
Qed.

Lemma filter_key_absent (k : string) (d : dict) :
  k ∉ dict_keys d -> filter (fun kr : string * ref => kr.1 <> k) d = d.
Proof.
  unfold dict in *. induction d as [|[k0 v0] l IH]; intros H; [done|].
  simpl in H. apply not_elem_of_cons in H as [Hne H].
  rewrite filter_cons_True by (simpl; congruence). f_equal. by apply IH.
Qed.

Section Scaling.

Context {DS SS : Type} `{!DispatchSchedulerOps DS} `{!ScaleSchedulerOps SS}.

Implicit Types (gs : GlobalScheduler DS SS) (w : Store).

Lemma scale_up_one_shape w gs k :
  let st := GS.scale_up_one (w, gs) k in
  (forall k', k' ∈ dict_keys (registry st.1)
              <-> k' = k \/ k' ∈ dict_keys (registry w))
  /\ (exists new, registry st.1 = registry w ++ new)
  /\ (exists objs, objects st.1 = objects w ++ objs).
Proof.
  cbv zeta. rewrite scale_up_one_eq.
  destruct (dict_contains k (registry w)) eqn:C; simpl.
  - apply dict_contains_true in C. split; [|split].
    + intros k'. split; [by right | by intros [->|?]].
    + exists []. by rewrite app_nil_r.
    + exists []. by rewrite app_nil_r.
  - split; [|split].
    + intros k'. unfold dict_keys. rewrite fmap_app, elem_of_app. simpl.
      rewrite list_elem_of_singleton. tauto.
    + by eexists.
    + by eexists.
Qed.

Lemma scale_up_fold_shape l : forall w gs,
  let st := fold_left GS.scale_up_one l (w, gs) in
  (forall k', k' ∈ dict_keys (registry st.1)
              <-> k' ∈ l \/ k' ∈ dict_keys (registry w))
  /\ (exists new, registry st.1 = registry w ++ new)
  /\ (exists objs, objects st.1 = objects w ++ objs).
Proof.
  induction l as [|k l IH]; intros w gs; cbn [fold_left].
  - cbv zeta. simpl. split; [|split].
    + intros k'. rewrite elem_of_nil. tauto.
    + exists []. by rewrite app_nil_r.
    + exists []. by rewrite app_nil_r.
  - destruct (scale_up_one_shape w gs k) as (K1 & [n1 R1] & [o1 O1]).
    destruct (GS.scale_up_one (w, gs) k) as [w1 gs1] eqn:E1. simpl in *.
    destruct (IH w1 gs1) as (K & [n R] & [o O]). split; [|split].
    + intros k'. rewrite K, K1, elem_of_cons. tauto.
    + exists (n1 ++ n). by rewrite R, R1, app_assoc.
    + exists (o1 ++ o). by rewrite O, O1, app_assoc.
Qed.

Lemma scale_up_all_present l : forall w gs,
  (forall k, k ∈ l -> k ∈ dict_keys (registry w)) ->
  fold_left GS.scale_up_one l (w, gs) = (w, gs).
Proof.
  induction l as [|k l IH]; intros w gs H; cbn [fold_left]; [done|].
  rewrite scale_up_one_eq.
  assert (C : dict_contains k (registry w) = true).
  { apply dict_contains_true, H. by left. }
  rewrite C. apply IH. intros k' Hk'. apply H. by right.
Qed.

(** X9. [scale_up] is idempotent: a second [scale_up] with the same
    ids changes nothing, neither in the scheduler nor in the store. *)
Theorem scale_up_idempotent ids w gs :
  GS.scale_up ids (GS.scale_up ids w gs).1 (GS.scale_up ids w gs).2
  = GS.scale_up ids w gs.
Proof.
  unfold GS.scale_up.
  destruct (scale_up_fold_shape (GS.instance_ids_of ids) w gs) as (K & _).
  destruct (fold_left GS.scale_up_one (GS.instance_ids_of ids) (w, gs))
    as [w1 gs1]. simpl in *.
  apply scale_up_all_present. intros k Hk. apply K. by left.
Qed.

(** X10. After [scale_up(ids)] the keys of [instance_info] are the
    former keys and the ids given; the former entries keep their place
    and their object, new entries come behind them, and no object that
    existed is modified.  In a state that satisfies the invariant,
    [instance_id_set] gains exactly the ids given and [num_instance] is
    its size. *)
Theorem scale_up_registers ids w gs :
  let w' := (GS.scale_up ids w gs).1 in
  let gs' := (GS.scale_up ids w gs).2 in
  (forall k, k ∈ dict_keys (registry w')
             <-> k ∈ GS.instance_ids_of ids \/ k ∈ dict_keys (registry w))
  /\ (exists new, registry w' = registry w ++ new)
  /\ (exists objs, objects w' = objects w ++ objs)
  /\ (GS_inv w gs ->
      instance_id_set gs'
      = instance_id_set gs ∪ list_to_set (GS.instance_ids_of ids)
      /\ num_instance gs' = size (instance_id_set gs')).
Proof.
  cbv zeta.
  destruct (scale_up_fold_shape (GS.instance_ids_of ids) w gs) as (K & R & O).
  fold (GS.scale_up ids w gs) in K, R, O.
  split; [exact K|]. split; [exact R|]. split; [exact O|].
  intros Inv.
  pose proof (GS_inv_scale_up (fun _ _ _ _ => 0%float) ids w gs Inv)
    as (_ & Hset' & Hnum' & _).
  destruct Inv as (_ & Hset & _). split; [|exact Hnum'].
  rewrite Hset', Hset. apply set_eq. intros k.
  rewrite elem_of_union, !elem_of_list_to_set, K. tauto.
Qed.

(** One iteration of [scale_down] in a state that satisfies the
    invariant. *)
Lemma scale_down_one_post w gs k :
  GS_inv w gs ->
  exists w' gs', GS.scale_down_one (Ok (w, gs)) k = Ok (w', gs')
    /\ GS_inv w' gs'
    /\ registry w' = filter (fun kr => kr.1 <> k) (registry w)
    /\ objects w' = objects w
    /\ instance_id_set gs' = instance_id_set gs ∖ {[k]}.
Proof.
  intros Inv.
  destruct (GS_inv_scale_down_one w gs k Inv) as (w' & gs' & E & Inv').
  exists w', gs'. split; [exact E|]. split; [exact Inv'|].
  destruct Inv as ([ND H] & Hset & Hnum & Hms).
  unfold GS.scale_down_one in E. simpl in E.
  destruct (instance_info gs); simpl in E.
  destruct (dict_contains k (registry w)) eqn:C.
  - destruct (dict_del k (registry w)) as [d|] eqn:Hd; simpl in E; [|done].
    assert (Hk : k ∈ instance_id_set gs).
    { rewrite Hset, elem_of_list_to_set. by apply dict_contains_true. }
    destruct (remove_instance_ok gs k Hk Hms) as (gs0 & E0 & S1 & _).
    rewrite E0 in E. simpl in E. injection E as <- <-. simpl.
    split; [by apply dict_del_filter|]. split; [done | exact S1].
  - injection E as <- <-. apply dict_contains_false in C.
    split; [by rewrite filter_key_absent|]. split; [done|].
    apply set_eq. intros x. rewrite elem_of_difference, elem_of_singleton.
    split; [|tauto]. intros Hx. split; [done|]. intros ->.
    apply C. by rewrite Hset, elem_of_list_to_set in Hx.
Qed.

(** X11. In a state that satisfies the invariant, hence in every
    reachable state, [scale_down(ids)] does not raise, whatever the
    ids.  It removes from [instance_info] exactly the entries whose key
    is among the ids, keeps the others in their order, removes the ids
    from [instance_id_set], sets [num_instance] to its size and
    modifies no object. *)
Theorem scale_down_removes ids w gs :
  GS_inv w gs ->
  exists w' gs', GS.scale_down ids w gs = Ok (w', gs')
    /\ registry w'
       = filter (fun kr => kr.1 ∉ GS.instance_ids_of ids) (registry w)
    /\ objects w' = objects w
    /\ instance_id_set gs'
       = instance_id_set gs ∖ list_to_set (GS.instance_ids_of ids)
    /\ num_instance gs' = size (instance_id_set gs').
Proof.
  unfold GS.scale_down.
  generalize (GS.instance_ids_of ids). intros l.
  revert w gs. induction l as [|k l IH]; intros w gs Inv.
  - exists w, gs. split; [done|]. split; [|split; [done|split]].
    + symmetry. clear. unfold dict. induction (registry w) as [|kr d IHd]; [done|].
      rewrite filter_cons_True by apply not_elem_of_nil. by f_equal.
    + rewrite list_to_set_nil. apply set_eq. intros x.
      rewrite elem_of_difference. split; [|tauto].
      intros Hx. split; [done | apply not_elem_of_empty].
    + apply Inv.
  - cbn [fold_left].
    destruct (scale_down_one_post w gs k Inv) as (w1 & gs1 & -> & Inv1 & R1 & O1 & S1).
    destruct (IH w1 gs1 Inv1) as (w' & gs' & E & R & O & S & N).
    exists w', gs'. split; [exact E|]. split; [|split; [congruence|split]].
    + rewrite R, R1. unfold dict. rewrite list_filter_filter.
      apply list_filter_iff.
      intros kr. rewrite not_elem_of_cons. tauto.
    + rewrite S, S1, list_to_set_cons. apply set_eq. intros x.
      rewrite !elem_of_difference, elem_of_union, elem_of_singleton. tauto.
    + exact N.
Qed.

(** X12. [scale_down] of ids none of which is registered returns the
    state as it was and does not raise, in any state. *)
Theorem scale_down_unknown_ids ids w gs :
  (forall k, k ∈ GS.instance_ids_of ids -> k ∉ dict_keys (registry w)) ->
  GS.scale_down ids w gs = Ok (w, gs).
Proof.
  unfold GS.scale_down.
  generalize (GS.instance_ids_of ids). intros l.
  induction l as [|k l IH]; intros H; cbn [fold_left]; [done|].
  assert (C : dict_contains k (registry w) = false).
  { apply dict_contains_false, H. by left. }
  assert (E : GS.scale_down_one (Ok (w, gs)) k = Ok (w, gs)).
  { unfold GS.scale_down_one. simpl. destruct (instance_info gs); simpl.
    by rewrite C. }
  rewrite E. apply IH. intros k' Hk'. apply H. by right.
Qed.

End Scaling.

Section Mirror.

Context {DS SS : Type} `{!DispatchSchedulerOps DS} `{!ScaleSchedulerOps SS}.
Variable load_formula : string -> bool -> InstanceInfo -> string -> float.

Implicit Types (gs : GlobalScheduler DS SS) (w : Store).

(** The count of the migration sub-scheduler is the size of its set. *)
Lemma mirror_count w gs :
  reachable load_formula w gs ->
  ms_num_instance (migrate_scheduler gs)
  = size (ms_instance_id_set (migrate_scheduler gs)).
Proof.
  induction 1 as [cfg w0 w gs Hinit
                 | w gs o _ IH
                 | w gs batch _ IH V
                 | w gs id gs' _ IH Hd
                 | w gs pairs w' gs' _ IH Hc
                 | w gs up down gs' _ IH Hc
                 | w gs ids w' gs' _ IH Hs
                 | w gs ids w' gs' _ IH Hs]; try exact IH.
  - unfold GS.init in Hinit.
    destruct (ds_init _ _) as [ds|]; simpl in Hinit; [|done].
    destruct (MS.init _ _ _) as [ms|] eqn:Hms; simpl in Hinit; [|done].
    destruct (ss_init _ _ _ _) as [ss|]; simpl in Hinit; [|done].
    injection Hinit as _ <-. simpl.
    apply MS_init_fields in Hms as (-> & -> & _). by rewrite size_empty.
  - unfold GS.dispatch in Hd.
    destruct (ds_dispatch _ _) as [[id' ds]|]; simpl in Hd; [|done].
    injection Hd as _ <-. exact IH.
  - unfold GS.check_migrate, MS.check_migrate, MS._sort_instance_infos in Hc.
    simpl in Hc. destruct (policy_check_migrate _ _ _) as [p w1]. simpl in Hc.
    injection Hc as _ _ <-. exact IH.
  - unfold GS.check_scale in Hc.
    destruct (ss_check_scale _ _) as [[[u d] ss]|]; simpl in Hc; [|done].
    injection Hc as _ _ <-. exact IH.
  - unfold GS.scale_up in Hs. revert w gs IH Hs.
    induction (GS.instance_ids_of ids) as [|k l IHl]; intros w gs IH Hs.
    + by injection Hs as <- <-.
    + cbn [fold_left] in Hs. rewrite scale_up_one_eq in Hs.
      destruct (dict_contains k (registry w)); eapply IHl; try exact Hs; done.
  - unfold GS.scale_down in Hs. revert w gs IH Hs.
    induction (GS.instance_ids_of ids) as [|k l IHl]; intros w gs IH Hs.
    + by injection Hs as <- <-.
    + cbn [fold_left] in Hs.
      destruct (GS.scale_down_one (Ok (w, gs)) k) as [[w1 gs1]|e] eqn:E1;
        [|by rewrite scale_down_one_raise in Hs].
      eapply IHl; [|exact Hs].
      unfold GS.scale_down_one in E1. simpl in E1.
      destruct (dict_contains k _); [|by injection E1 as <- <-].
      destruct (dict_del k _) as [d|]; simpl in E1; [|done].
      unfold GS._remove_instance, MS.remove_instance in E1.
      destruct (set_remove k (instance_id_set gs)) as [s|]; simpl in E1; [|done].
      destruct (set_remove k _) as [s'|]; simpl in E1; [|done].
      by injection E1 as <- <-.
Qed.

(** X13. In every reachable state the migration sub-scheduler's own
    [instance_id_set] and [num_instance] equal those of the
    [GlobalScheduler]. *)
Theorem migration_scheduler_mirror w gs :
  reachable load_formula w gs ->
  ms_instance_id_set (migrate_scheduler gs) = instance_id_set gs
  /\ ms_num_instance (migrate_scheduler gs) = num_instance gs.
Proof.
  intros R. pose proof (mirror_count w gs R) as C.
  destruct (reachable_inv load_formula w gs R) as (_ & _ & Hnum & Hms).
  split; [exact Hms|]. by rewrite C, Hms, Hnum.
Qed.

End Mirror.

(** ** llumnix_utils.py: retries *)

Import Utils.

Lemma retry_loop_answer {A} (ray_call : nat -> call_outcome A) n :
  forall a len,
    a + len = MAX_TASK_RETRIES -> n < len ->
    (forall i, i < n -> ray_call (a + i) = RaisesRayActorError) ->
    ray_call (a + n) <> RaisesRayActorError ->
    retry_loop ray_call (seq a len)
    = (ending_of (ray_call (a + n)), unavailable a n ++ [RayCall (a + n)]).
Proof.
  induction n as [|n IH]; intros a len Hlen Hn Hfail Hok.
  - destruct len as [|len]; [lia|]. cbn [seq retry_loop].
    rewrite Nat.add_0_r in *. unfold unavailable. simpl.
    by destruct (ray_call a).
  - destruct len as [|len]; [lia|]. cbn [seq retry_loop].
    pose proof (Hfail 0 ltac:(lia)) as H0. rewrite Nat.add_0_r in H0.
    rewrite H0.
    destruct (Nat.ltb_spec a (MAX_TASK_RETRIES - 1)) as [_|Hge]; [|lia].
    rewrite (IH (S a) len); try lia.
    + replace (S a + n) with (a + S n) by lia. reflexivity.
    + intros i Hi. replace (S a + i) with (a + S i) by lia. apply Hfail. lia.
    + by replace (S a + n) with (a + S n) by lia.
Qed.

Lemma retry_loop_gives_up {A} (ray_call : nat -> call_outcome A) len :
  forall a,
    a + S len = MAX_TASK_RETRIES ->
    (forall i, i <= len -> ray_call (a + i) = RaisesRayActorError) ->
    retry_loop ray_call (seq a (S len))
    = (Raised RayActorError,
       unavailable a len ++ [RayCall (a + len); LogInfo]).
Proof.
  induction len as [|len IH]; intros a Hlen Hfail.
  - cbn [seq retry_loop]. pose proof (Hfail 0 ltac:(lia)) as H0.
    rewrite Nat.add_0_r in *. rewrite H0.
    destruct (Nat.ltb_spec a (MAX_TASK_RETRIES - 1)) as [Hlt|_]; [lia|].
    reflexivity.
  - change (seq a (S (S len))) with (a :: seq (S a) (S len)).
    cbn [retry_loop]. pose proof (Hfail 0 ltac:(lia)) as H0.
    rewrite Nat.add_0_r in H0. rewrite H0.
    destruct (Nat.ltb_spec a (MAX_TASK_RETRIES - 1)) as [_|Hge]; [|lia].
    rewrite (IH (S a)); try lia.
    + replace (S a + len) with (a + S len) by lia. reflexivity.
    + intros i Hi. replace (S a + i) with (a + S i) by lia. apply Hfail. lia.
Qed.

(** X14. When the first [n] attempts (fewer than [MAX_TASK_RETRIES])
    raise [RayActorError] and the next one does not,
    [retry_manager_method_sync] makes exactly [n + 1] calls, with a log
    message and a sleep of [RETRIES_INTERVALS] after each of the first
    [n], and ends as that last call does: it returns its value or lets
    its exception through. *)
Theorem retry_returns_first_answer {A} (ray_call : nat -> call_outcome A) n :
  n < MAX_TASK_RETRIES ->
  (forall i, i < n -> ray_call i = RaisesRayActorError) ->
  ray_call n <> RaisesRayActorError ->
  retry_manager_method_sync ray_call
  = (ending_of (ray_call n), unavailable 0 n ++ [RayCall n]).
Proof.
  intros Hn Hfail Hok. unfold retry_manager_method_sync.
  by rewrite (retry_loop_answer ray_call n 0 MAX_TASK_RETRIES).
Qed.

(** X15. When all [MAX_TASK_RETRIES] attempts raise [RayActorError],
    [retry_manager_method_sync] raises [RayActorError] after exactly
    that many calls and one sleep fewer: it does not sleep after the
    last attempt. *)
Theorem retry_gives_up {A} (ray_call : nat -> call_outcome A) :
  (forall i, i < MAX_TASK_RETRIES -> ray_call i = RaisesRayActorError) ->
  retry_manager_method_sync ray_call
  = (Raised RayActorError,
     unavailable 0 (MAX_TASK_RETRIES - 1)
       ++ [RayCall (MAX_TASK_RETRIES - 1); LogInfo]).
Proof.
  intros Hfail. unfold retry_manager_method_sync.
  change MAX_TASK_RETRIES with (S (MAX_TASK_RETRIES - 1)) at 1.
  rewrite (retry_loop_gives_up ray_call (MAX_TASK_RETRIES - 1) 0); [done|done|].
  intros i Hi. apply Hfail. unfold MAX_TASK_RETRIES in *. lia.
Qed.

Lemma unavailable_counts a n :
  length (List.filter is_ray_call (unavailable a n)) = n
  /\ length (List.filter is_sleep (unavailable a n)) = n.
Proof.
  unfold unavailable. revert a.
  induction n as [|n IH]; intros a; simpl; [done|].
  destruct (IH (S a)) as [-> ->]. done.
Qed.

(** Either some attempt is the first not to raise [RayActorError], or
    the first [k] all do. *)
Lemma first_answer_or_none {A} (ray_call : nat -> call_outcome A) k :
  (exists n, n < k /\ (forall i, i < n -> ray_call i = RaisesRayActorError)
             /\ ray_call n <> RaisesRayActorError)
  \/ (forall i, i < k -> ray_call i = RaisesRayActorError).
Proof.
  induction k as [|k [(n & Hn & Hfail & Hok)|Hall]].
  - right. intros i Hi. lia.
  - left. exists n. split; [lia | done].
  - destruct (ray_call k) eqn:E.
    + left. exists k. split; [lia|]. split; [done | congruence].
    + right. intros i Hi. destruct (decide (i = k)) as [->|]; [done|].
      apply Hall. lia.
    + left. exists k. split; [lia|]. split; [done | congruence].
Qed.

(** X16. Whatever the calls do, [retry_manager_method_sync] makes at
    least one call and at most [MAX_TASK_RETRIES], sleeps fewer times
    than it calls, and never ends on the unassigned [ret] of its last
    line. *)
Theorem retry_is_bounded {A} (ray_call : nat -> call_outcome A) :
  let out := retry_manager_method_sync ray_call in
  1 <= length (List.filter is_ray_call out.2) <= MAX_TASK_RETRIES
  /\ length (List.filter is_sleep out.2) < length (List.filter is_ray_call out.2)
  /\ out.1 <> Raised (UnboundLocalError "ret").
Proof.
  cbv zeta.
  destruct (first_answer_or_none ray_call MAX_TASK_RETRIES)
    as [(n & Hn & Hfail & Hok)|Hall].
  - assert (E : retry_manager_method_sync ray_call
                = (ending_of (ray_call n), unavailable 0 n ++ [RayCall n])).
    { unfold retry_manager_method_sync.
      by rewrite (retry_loop_answer ray_call n 0 MAX_TASK_RETRIES). }
    rewrite E. cbn [fst snd]. rewrite !List.filter_app, !length_app.
    destruct (unavailable_counts 0 n) as [-> ->]. simpl.
    split; [lia|]. split; [lia|]. by destruct (ray_call n).
  - assert (E : retry_manager_method_sync ray_call
                = (Raised RayActorError,
                   unavailable 0 (MAX_TASK_RETRIES - 1)
                     ++ [RayCall (MAX_TASK_RETRIES - 1); LogInfo])).
    { unfold retry_manager_method_sync.
      change MAX_TASK_RETRIES with (S (MAX_TASK_RETRIES - 1)) at 1.
      rewrite (retry_loop_gives_up ray_call (MAX_TASK_RETRIES - 1) 0);
        [done|done|].
      intros i Hi. apply Hall. unfold MAX_TASK_RETRIES in *. lia. }
    rewrite E. cbn [fst snd]. rewrite !List.filter_app, !length_app.
    destruct (unavailable_counts 0 (MAX_TASK_RETRIES - 1)) as [-> ->]. simpl.
    unfold MAX_TASK_RETRIES. split; [lia|]. split; [lia | done].
Qed.

(** ** llumnix_utils.py: launch_ray_cluster *)

(** Within [range(MAX_RESTARTS)] the loop of the non-head node never
    reaches its [sys.exit]. *)
Lemma ray_start_loop_no_exit env ip port len : forall a c,
  a + len <= MAX_RESTARTS ->
  (ray_start_loop env ip port (seq a len)).1 <> SysExit c.
Proof.
  induction len as [|len IH]; intros a c Hle; [done|].
  change (seq a (S len)) with (a :: seq (S a) len). cbn [ray_start_loop].
  destruct (run_ray_start_address env a); [done| |done].
  destruct (Nat.ltb_spec a MAX_RESTARTS) as [_|Hge]; [|lia].
  specialize (IH (S a) c ltac:(lia)).
  by destruct (ray_start_loop env ip port (seq (S a) len)).
Qed.

Lemma ray_start_loop_all_fail env ip port len : forall a,
  a + len <= MAX_RESTARTS ->
  (forall i, i < len -> fails (run_ray_start_address env (a + i))) ->
  ray_start_loop env ip port (seq a len) = (Returned None, stalled ip port len).
Proof.
  induction len as [|len IH]; intros a Hle Hfail; [done|].
  change (seq a (S len)) with (a :: seq (S a) len). cbn [ray_start_loop].
  pose proof (Hfail 0 ltac:(lia)) as H0. rewrite Nat.add_0_r in H0.
  destruct (run_ray_start_address env a); [done| |done].
  destruct (Nat.ltb_spec a MAX_RESTARTS) as [_|Hge]; [|lia].
  rewrite (IH (S a)); [done | lia |].
  intros i Hi. replace (S a + i) with (a + S i) by lia. apply Hfail. lia.
Qed.

Lemma ray_start_loop_result env ip port len : forall a out t,
  a + len <= MAX_RESTARTS ->
  ray_start_loop env ip port (seq a len) = (Returned (Some out), t) ->
  exists n, n < len
    /\ run_ray_start_address env (a + n) = Completed out
    /\ (forall i, i < n -> fails (run_ray_start_address env (a + i)))
    /\ t = stalled ip port n ++ [Run (ray_start_address ip port)].
Proof.
  induction len as [|len IH]; intros a out t Hle; [done|].
  change (seq a (S len)) with (a :: seq (S a) len). cbn [ray_start_loop].
  destruct (run_ray_start_address env a) as [o|e|e] eqn:E; [| |done].
  - intros [= <- <-]. exists 0. rewrite Nat.add_0_r.
    split; [lia|]. split; [done|]. split; [intros i Hi; lia | done].
  - destruct (Nat.ltb_spec a MAX_RESTARTS) as [_|Hge]; [|lia].
    destruct (ray_start_loop env ip port (seq (S a) len)) as [e' t'] eqn:E'.
    intros [= -> <-].
    destruct (IH (S a) out t' ltac:(lia) E') as (n & Hn & Hc & Hf & ->).
    exists (S n). split; [lia|].
    replace (a + S n) with (S a + n) by lia. split; [done|]. split; [|done].
    intros [|i] Hi.
    + rewrite Nat.add_0_r, E. exact I.
    + replace (a + S i) with (S a + i) by lia. apply Hf. lia.
Qed.

(** X17. [launch_ray_cluster] ends in [sys.exit] only with status 1
    and only for one of three reasons: [ray stop] failed,
    [HEAD_NODE_IP] is not set, or the head node's [ray start] failed.
    On a node that is not the head, no failure of [ray start] makes it
    exit: the [sys.exit] inside its retry loop is never reached. *)
Theorem launch_exit_reasons env port c :
  (launch_ray_cluster env port).1 = SysExit c ->
  c = 1%Z
  /\ ((exists e, run_ray_stop env = RaisesCalledProcessError e)
      \/ HEAD_NODE_IP env = None
      \/ (HEAD_NODE env = true
          /\ exists e, run_ray_start_head env = RaisesCalledProcessError e)).
Proof.
  unfold launch_ray_cluster, get_ip_address.
  destruct (run_hostname_i env); [|done|done].
  destruct (run_ray_stop env) as [o|e|e]; [| |done].
  - destruct (HEAD_NODE_IP env) as [ip|]; [|intros [= <-]; auto].
    destruct (HEAD_NODE env) eqn:HN.
    + destruct (run_ray_start_head env) as [o'|e'|e'] eqn:HS; [| |done].
      * unfold log_and_init. by destruct (ray_init_raises env).
      * intros [= <-]. split; [done|]. right. right. split; [done | by eexists].
    + pose proof (ray_start_loop_no_exit env ip port MAX_RESTARTS 0 c
                    ltac:(simpl; lia)) as NE.
      destruct (ray_start_loop env ip port (seq 0 MAX_RESTARTS))
        as [[r|e'|c'] t]; simpl in *; [|done|congruence].
      unfold log_and_init. destruct r; [|done].
      by destruct (ray_init_raises env).
  - intros [= <-]. split; [done|]. left. by eexists.
Qed.

(** X18. On a node that is not the head, with [HEAD_NODE_IP] set and
    [hostname] and [ray stop] successful, if every one of the
    [MAX_RESTARTS] attempts of [ray start --address] fails,
    [launch_ray_cluster] prints and sleeps after each of them, the last
    included, and then ends with [UnboundLocalError] on [result]; it
    neither exits nor calls [ray.init]. *)
Theorem launch_worker_never_started env port ip :
  HEAD_NODE_IP env = Some ip ->
  HEAD_NODE env = false ->
  (exists out, run_hostname_i env = Completed out) ->
  (exists out, run_ray_stop env = Completed out) ->
  (forall i, i < MAX_RESTARTS -> fails (run_ray_start_address env i)) ->
  launch_ray_cluster env port
  = (Raised (UnboundLocalError "result"),
     [Run hostname_i; Run ray_stop_force] ++ stalled ip port MAX_RESTARTS).
Proof.
  intros Hip Hhead [o1 H1] [o2 H2] Hfail.
  unfold launch_ray_cluster, get_ip_address. rewrite H1, H2, Hip, Hhead.
  rewrite (ray_start_loop_all_fail env ip port MAX_RESTARTS 0);
    [|simpl; lia|exact Hfail].
  cbn [log_and_init]. by rewrite app_nil_r.
Qed.

(** X19. [launch_ray_cluster] returns only when [HEAD_NODE_IP] is set,
    a [ray start] completed (the head's, or on another node one of the
    first [MAX_RESTARTS] attempts, those before it having failed) and
    [ray.init], its last event, did not raise. *)
Theorem launch_returns_after_start env port :
  (launch_ray_cluster env port).1 = Returned tt ->
  exists ip t,
    HEAD_NODE_IP env = Some ip
    /\ (launch_ray_cluster env port).2 = t ++ [LogInfo; RayInit ip port]
    /\ ray_init_raises env = None
    /\ if HEAD_NODE env
       then exists out, run_ray_start_head env = Completed out
       else exists n out,
              n < MAX_RESTARTS
              /\ run_ray_start_address env n = Completed out
              /\ forall i, i < n -> fails (run_ray_start_address env i).
Proof.
  unfold launch_ray_cluster, get_ip_address.
  destruct (run_hostname_i env); [|done|done]. cbn [app].
  destruct (run_ray_stop env) as [o|e|e]; [|done|done].
  destruct (HEAD_NODE_IP env) as [ip|]; [|done].
  destruct (HEAD_NODE env) eqn:HN.
  - destruct (run_ray_start_head env) as [o'|e'|e'] eqn:HS; [|done|done].
    unfold log_and_init. destruct (ray_init_raises env) eqn:RI; [done|].
    intros _.
    exists ip, [Run hostname_i; Run ray_stop_force; Run (ray_start_head port)].
    split; [done|]. split; [|split; [done|]].
    + reflexivity.
    + by eexists.
  - destruct (ray_start_loop env ip port (seq 0 MAX_RESTARTS))
      as [[r|e'|c'] t] eqn:EL; [|done|done].
    unfold log_and_init. destruct r as [out|]; [|done].
    destruct (ray_init_raises env) eqn:RI; [done|].
    intros _.
    destruct (ray_start_loop_result env ip port MAX_RESTARTS 0 out t
                ltac:(simpl; lia) EL) as (n & Hn & Hc & Hf & ->).
    exists ip, ([Run hostname_i; Run ray_stop_force]
                ++ stalled ip port n ++ [Run (ray_start_address ip port)]).
    split; [done|]. split; [|split; [done|]].
    + cbn [fst snd]. by rewrite <- !app_assoc.
    + exists n, out. done.
Qed.

(** ** The order of the pairs *)

Lemma SFleb_trans a b c :
  SFleb a b = true -> SFleb b c = true -> SFleb a c = true.
Proof.
  unfold SFleb.
  destruct a as [sa|sa| |sa ma ea], b as [sb|sb| |sb mb eb],
    c as [sc|sc| |sc mc ec]; simpl;
    try discriminate; try reflexivity;
    repeat match goal with s : bool |- _ => destruct s end; simpl;
    try discriminate; try reflexivity.
  all: change (PosDef.Pos.compare_cont Eq) with Pos.compare.
  all: destruct (Z.compare_spec ea eb), (Z.compare_spec eb ec),
         (Z.compare_spec ea ec); simpl; try discriminate; try reflexivity;
       try lia.
  all: destruct (Pos.compare_spec ma mb), (Pos.compare_spec mb mc),
         (Pos.compare_spec ma mc); simpl; try discriminate; try reflexivity;
       try lia.
Qed.

Lemma float_leb_trans x y z :
  (x <=? y)%float = true -> (y <=? z)%float = true -> (x <=? z)%float = true.
Proof. rewrite !leb_spec. apply SFleb_trans. Qed.

Lemma float_ltb_leb x y : (x <? y)%float = true -> (x <=? y)%float = true.
Proof.
  rewrite ltb_spec, leb_spec. unfold SFltb, SFleb.
  by destruct (SFcompare (Prim2SF x) (Prim2SF y)) as [[]|].
Qed.

Section Sortedness.

Context {A : Type} (key : A -> float).

Let le (x y : A) : Prop := (key x <=? key y)%float = true.

Lemma insert_by_StronglySorted x l :
  ~ is_nan (key x) -> Forall (fun y => ~ is_nan (key y)) l ->
  StronglySorted le l -> StronglySorted le (insert_by key x l).
Proof.
  intros Nx. induction l as [|y l IH]; intros N S; simpl.
  - repeat constructor.
  - apply Forall_cons in N as [Ny N]. apply StronglySorted_cons in S as [Hy S].
    destruct (key y <? key x)%float eqn:E.
    + apply StronglySorted_cons. split; [|by apply IH].
      rewrite insert_by_perm. constructor; [|done].
      by apply float_ltb_leb.
    + assert (Hxy : le x y) by by apply F.not_gt_le.
      apply StronglySorted_cons. split.
      * constructor; [done|]. eapply Forall_impl; [exact Hy|].
        intros z Hz. unfold le in *. by eapply float_leb_trans.
      * by apply StronglySorted_cons.
Qed.

Lemma sorted_ascending l :
  Forall (fun y => ~ is_nan (key y)) l ->
  StronglySorted le (sorted l key false).
Proof.
  unfold sorted. induction l as [|x l IH]; intros N; simpl; [constructor|].
  apply Forall_cons in N as [Nx N]. apply insert_by_StronglySorted; [done| |auto].
  change (foldr (insert_by key) [] l) with (sorted l key false).
  by rewrite sorted_perm.
Qed.

End Sortedness.

Lemma StronglySorted_sublist {A} (R : relation A) l1 l2 :
  l1 `sublist_of` l2 -> StronglySorted R l2 -> StronglySorted R l1.
Proof.
  induction 1 as [|x l1 l2 Hs IH|x l1 l2 Hs IH]; intros S; [done| |].
  - apply StronglySorted_cons in S as [Hx S]. apply StronglySorted_cons.
    split; [|by apply IH]. rewrite Forall_forall in *.
    intros y Hy. apply Hx. by eapply elem_of_sublist.
  - apply StronglySorted_cons in S as [_ S]. by apply IH.
Qed.

Lemma StronglySorted_rev {A} (R : relation A) l :
  StronglySorted R l -> StronglySorted (flip R) (rev l).
Proof.
  induction l as [|x l IH]; intros S; simpl; [constructor|].
  apply StronglySorted_cons in S as [Hx S].
  apply StronglySorted_app_2; [|by apply IH|repeat constructor].
  intros y z Hy Hz. apply list_elem_of_singleton in Hz as ->.
  apply list_elem_of_In, in_rev, list_elem_of_In in Hy.
  rewrite Forall_forall in Hx. by apply Hx.
Qed.

Lemma StronglySorted_combine {A B} (R1 : relation A) (R2 : relation B) l r :
  StronglySorted R1 l -> StronglySorted R2 r ->
  StronglySorted (fun p q => R1 p.1 q.1 /\ R2 p.2 q.2) (combine l r).
Proof.
  revert r. induction l as [|x l IH]; intros [|y r] S1 S2; simpl;
    try constructor.
  - apply IH.
    + by apply StronglySorted_cons in S1 as [_ ?].
    + by apply StronglySorted_cons in S2 as [_ ?].
  - apply StronglySorted_cons in S1 as [H1 _].
    apply StronglySorted_cons in S2 as [H2 _].
    rewrite Forall_forall in H1. rewrite Forall_forall in H2.
    apply Forall_forall. intros [a b] Hab. simpl.
    apply list_elem_of_In in Hab. split.
    + apply H1, list_elem_of_In. by eapply in_combine_l.
    + apply H2, list_elem_of_In. by eapply in_combine_r.
Qed.

Lemma StronglySorted_lookup_lt {A} (R : relation A) l i j x y :
  StronglySorted R l -> i < j -> l !! i = Some x -> l !! j = Some y -> R x y.
Proof.
  revert i j. induction l as [|z l IH]; intros i j S Hij Hi Hj; [done|].
  apply StronglySorted_cons in S as [Hz S].
  destruct j as [|j]; [lia|]. simpl in Hj. destruct i as [|i].
  - injection Hi as ->. rewrite Forall_forall in Hz.
    apply Hz. by eapply list_elem_of_lookup_2.
  - simpl in Hi. apply (IH i j); [done | lia | done | done].
Qed.

(** The zipped pairs of a policy are in order: migrate-in objects by
    ascending load, migrate-out objects by descending load. *)
Lemma zipped_in_order cls thr w l :
  StronglySorted (load_le w) l ->
  StronglySorted (fun p q => load_le w p.1 q.1 /\ load_le w q.2 p.2)
    (zipped cls thr w l).
Proof.
  intros S.
  assert (SL : StronglySorted (load_le w) (left_instance_infos thr w l))
    by (eapply StronglySorted_sublist; [apply filter_sublist | done]).
  assert (SV : StronglySorted (flip (load_le w)) (rev l))
    by by apply StronglySorted_rev.
  assert (SR : StronglySorted (flip (load_le w)) (right_instance_infos thr w l))
    by (eapply StronglySorted_sublist; [apply filter_sublist | done]).
  destruct cls; simpl;
    by apply (StronglySorted_combine (load_le w) (flip (load_le w))).
Qed.

Section Order.

Context {DS SS : Type} `{!DispatchSchedulerOps DS} `{!ScaleSchedulerOps SS}.

Implicit Types (gs : GlobalScheduler DS SS) (w : Store).

(** X20. When no registered load is NaN, the pairs come in order of
    urgency: of two returned pairs, the earlier one has the destination
    with the smaller (or equal) [instance_load_migrate] and the source
    with the larger (or equal) one.  So the first pair joins the most
    loaded source to the least loaded destination among those paired. *)
Theorem check_migrate_in_load_order w gs pairs w' gs' i j s1 d1 s2 d2 :
  registry_ok w ->
  (forall r, r ∈ dict_values (registry w) ->
     ~ is_nan (instance_load_migrate (deref w r))) ->
  GS.check_migrate w gs = Ok (pairs, w', gs') ->
  i < j -> pairs !! i = Some (s1, d1) -> pairs !! j = Some (s2, d2) ->
  exists rs1 rd1 rs2 rd2,
    dict_get s1 (registry w) = Some rs1 /\ dict_get d1 (registry w) = Some rd1
    /\ dict_get s2 (registry w) = Some rs2 /\ dict_get d2 (registry w) = Some rd2
    /\ load_le w rd1 rd2 /\ load_le w rs2 rs1.
Proof.
  intros Hok Hnan Hc Hij Hi Hj.
  rewrite (check_migrate_pairs _ _ _ _ _ Hok Hc) in Hi, Hj.
  set (p := policy_of gs) in *. set (l := sorted_registry w) in *.
  change (map (pair_ids w) (emitted p w l))
    with (pair_ids w <$> emitted p w l) in Hi, Hj.
  rewrite list_lookup_fmap in Hi, Hj.
  destruct (emitted p w l !! i) as [[l1 r1]|] eqn:Ei; [|done].
  destruct (emitted p w l !! j) as [[l2 r2]|] eqn:Ej; [|done].
  simpl in Hi, Hj. injection Hi as <- <-. injection Hj as <- <-.
  assert (SL : StronglySorted (load_le w) l).
  { unfold l, sorted_registry.
    apply (sorted_ascending (fun i => instance_load_migrate (deref w i))).
    apply Forall_forall. exact Hnan. }
  pose proof (zipped_in_order (policy_class p)
                (policy_migrate_out_load_threshold p) w l SL) as SZ.
  pose proof (StronglySorted_sublist _ _ _ (emitted_sublist p w l) SZ) as SE.
  destruct (StronglySorted_lookup_lt _ _ i j _ _ SE Hij Ei Ej) as [O1 O2].
  simpl in O1, O2.
  assert (Hin : forall x y, emitted p w l !! i = Some (x, y)
                  \/ emitted p w l !! j = Some (x, y) ->
                dict_get (instance_id (deref w x)) (registry w) = Some x
                /\ dict_get (instance_id (deref w y)) (registry w) = Some y).
  { intros x y H.
    assert (Hxy : (x, y) ∈ emitted p w l)
      by (destruct H; by eapply list_elem_of_lookup_2).
    destruct (emitted_zipped _ _ _ _ Hxy) as [Hz _].
    destruct (zipped_elem _ _ _ _ _ _ Hz) as (Hx & Hy & _).
    unfold l, sorted_registry in Hx, Hy. apply elem_of_sorted in Hx, Hy.
    split; by apply registry_value_entry. }
  destruct (Hin l1 r1 (or_introl Ei)) as [G1 G2].
  destruct (Hin l2 r2 (or_intror Ej)) as [G3 G4].
  exists r1, l1, r2, l2. unfold pair_ids. simpl. done.
Qed.

End Order.

(** ** [check_migrate] before the first snapshot *)

Lemma add_instances_keep_snapshot ms ids :
  ms_instance_info (foldr MS.add_instance ms ids) = ms_instance_info ms.
Proof. induction ids as [|k ids IH]; [done|]. simpl. exact IH. Qed.

Section Snapshot.

Context {DS SS : Type} `{!DispatchSchedulerOps DS} `{!ScaleSchedulerOps SS}.

(** X21. A [MigrationScheduler] used on its own raises [AttributeError]
    in [check_migrate] as long as [update_instance_infos] was not called,
    whatever instances were added: its [instance_info] is still [None],
    and the sort reads its [values].  After [update_instance_infos] it
    returns; and [GlobalScheduler.check_migrate], which hands the
    registry over first, returns in every state. *)
Theorem check_migrate_needs_update name thr calc ms ids w :
  MS.init name thr calc = Ok ms ->
  let ms' := foldr MS.add_instance ms ids in
  MS.check_migrate w ms' = Raise (AttributeError "values")
  /\ (forall d, is_ok (MS.check_migrate w (MS.update_instance_infos d ms')))
  /\ forall gs : GlobalScheduler DS SS, is_ok (GS.check_migrate w gs).
Proof.
  intros Hinit ms'.
  destruct (MS_init_fields _ _ _ _ Hinit) as (_ & _ & Hnone & _).
  assert (Hms' : ms_instance_info ms' = None)
    by (unfold ms'; by rewrite add_instances_keep_snapshot).
  assert (Hupd : forall d m, is_ok (MS.check_migrate w (MS.update_instance_infos d m))).
  { intros d m. unfold MS.check_migrate, MS._sort_instance_infos. simpl.
    destruct (policy_check_migrate _ _ _) as [pairs w']. by eexists. }
  split; [|split].
  - unfold MS.check_migrate, MS._sort_instance_infos. by rewrite Hms'.
  - intros d. apply Hupd.
  - intros gs. unfold GS.check_migrate.
    destruct (Hupd (instance_info gs) (migrate_scheduler gs))
      as [[[pairs w'] m'] E].
    rewrite E. simpl. by eexists.
Qed.

End Snapshot.

(** * Runs on the small fleet *)

Import Fleet.

Lemma init_scheduler_of cls :
  GS.init remaining_steps (config (policy_name cls) true) empty_store
  = Ok (empty_store, scheduler_of cls).
Proof. destruct cls; reflexivity. Qed.

Lemma scheduler_of_reachable cls :
  reachable remaining_steps empty_store (scheduler_of cls).
Proof. eapply reach_init. apply init_scheduler_of. Qed.

Lemma fresh_instance_reachable cls :
  reachable remaining_steps (fresh_instance cls).1 (fresh_instance cls).2.
Proof.
  eapply reach_scale_up; [apply scheduler_of_reachable|].
  apply surjective_pairing.
Qed.

Lemma hot_and_cold_reachable cls :
  reachable remaining_steps (hot_and_cold cls).1 (hot_and_cold cls).2.
Proof.
  unfold hot_and_cold. cbn zeta. cbn [fst snd].
  apply reach_update_instance_infos.
  - do 2 apply reach_heartbeat_object.
    eapply reach_scale_up; [apply scheduler_of_reachable|].
    apply surjective_pairing.
  - destruct cls; vm_compute; repeat constructor.
Qed.

Lemma hot_and_new_reachable cls :
  reachable remaining_steps (hot_and_new cls).1 (hot_and_new cls).2.
Proof.
  unfold hot_and_new. cbn zeta. cbn [fst snd].
  apply reach_update_instance_infos.
  - apply reach_heartbeat_object.
    eapply reach_scale_up; [apply scheduler_of_reachable|].
    apply surjective_pairing.
  - destruct cls; vm_compute; repeat constructor.
Qed.

Lemma two_heartbeats_reachable :
  reachable remaining_steps two_heartbeats.1 two_heartbeats.2.
Proof.
  unfold two_heartbeats. cbn zeta. cbn [fst snd].
  do 2 apply reach_heartbeat_object.
  eapply reach_scale_up; [apply scheduler_of_reachable|].
  apply surjective_pairing.
Qed.

(** The value of [check_migrate] on a closed state. *)
Ltac run_check_migrate w gs :=
  let r := eval vm_compute in (GS.check_migrate w gs) in
  lazymatch r with
  | Ok (?p, ?w', ?g') => exists p, w', g'
  end.

(** C1, counterexample: under [prefill_relaxed], with one instance just
    scaled up, [check_migrate] returns the pair of this instance with
    itself. *)
Lemma relaxed_pairs_instance_with_itself :
  let w := (fresh_instance PrefillRelaxed).1 in
  let gs := (fresh_instance PrefillRelaxed).2 in
  reachable remaining_steps w gs
  /\ exists pairs w' gs',
       GS.check_migrate w gs = Ok (pairs, w', gs')
       /\ pairs = [("a", "a")]
       /\ ~ (forall s d, (s, d) ∈ pairs -> s <> d).
Proof.
  split; [apply fresh_instance_reachable|].
  run_check_migrate (fresh_instance PrefillRelaxed).1
    (fresh_instance PrefillRelaxed).2.
  split; [vm_compute; reflexivity|]. split; [reflexivity|].
  intros H. apply (H "a" "a"); [|reflexivity]. apply list_elem_of_here.
Qed.

(** C1, witness: [hot] migrates to [cold] under [balanced]. *)
Lemma check_migrate_source_differs_witness :
  let w := (hot_and_cold Balanced).1 in
  let gs := (hot_and_cold Balanced).2 in
  registry_ok w
  /\ policy_class (policy_of gs) <> PrefillRelaxed
  /\ exists pairs w' gs',
       GS.check_migrate w gs = Ok (pairs, w', gs')
       /\ pairs = [("hot", "cold")]
       /\ forall s d, (s, d) ∈ pairs -> s <> d.
Proof.
  pose proof (reachable_inv _ _ _ (hot_and_cold_reachable Balanced)) as [Hok _].
  split; [exact Hok|]. split; [discriminate|].
  run_check_migrate (hot_and_cold Balanced).1 (hot_and_cold Balanced).2.
  split; [vm_compute; reflexivity|]. split; [reflexivity|].
  eapply (check_migrate_source_differs (hot_and_cold Balanced).1
            (hot_and_cold Balanced).2);
    [exact Hok | vm_compute; reflexivity | discriminate].
Defined.

(** C2, witness: under [balanced], the pair of [hot] and [cold] passes the
    gate (projected loads -26 and -4/3, gap 39 before). *)
Lemma balanced_pair_gated_witness :
  let w := (hot_and_cold Balanced).1 in
  let gs := (hot_and_cold Balanced).2 in
  registry_ok w
  /\ policy_class (policy_of gs) = Balanced
  /\ exists pairs w' gs',
       GS.check_migrate w gs = Ok (pairs, w', gs')
       /\ ("hot", "cold") ∈ pairs
       /\ exists l r, dict_get "cold" (registry w) = Some l
            /\ dict_get "hot" (registry w) = Some r
            /\ let thr := policy_migrate_out_load_threshold (policy_of gs) in
               let calc := policy_instance_load_calculator (policy_of gs) in
               let left_after := load_after_migrate calc true (deref w l) in
               let right_after := load_after_migrate calc false (deref w r) in
               ((left_after <=? thr)%float = true
                /\ (0 <? right_after - left_after)%float = true
                /\ (right_after - left_after
                    <? instance_load_migrate (deref w r)
                       - instance_load_migrate (deref w l))%float = true)
               \/ (instance_load_migrate (deref w l) =? neg_infinity)%float
                  = true.
Proof.
  pose proof (reachable_inv _ _ _ (hot_and_cold_reachable Balanced)) as [Hok _].
  split; [exact Hok|]. split; [reflexivity|].
  run_check_migrate (hot_and_cold Balanced).1 (hot_and_cold Balanced).2.
  split; [vm_compute; reflexivity|]. split; [apply list_elem_of_here|].
  eapply (balanced_pair_gated (hot_and_cold Balanced).1
            (hot_and_cold Balanced).2);
    [exact Hok | reflexivity | vm_compute; reflexivity | apply list_elem_of_here].
Defined.

(** C8, witness: the destination [cold] has no killed request and a load
    below the threshold. *)
Lemma check_migrate_destination_witness :
  let w := (hot_and_cold PrefillConstrained).1 in
  let gs := (hot_and_cold PrefillConstrained).2 in
  registry_ok w
  /\ exists pairs w' gs',
       GS.check_migrate w gs = Ok (pairs, w', gs')
       /\ ("hot", "cold") ∈ pairs
       /\ exists l, dict_get "cold" (registry w) = Some l
            /\ num_killed_request (deref w l) = 0%Z
            /\ (instance_load_migrate (deref w l)
                <? policy_migrate_out_load_threshold (policy_of gs))%float
               = true.
Proof.
  pose proof (reachable_inv _ _ _ (hot_and_cold_reachable PrefillConstrained))
    as [Hok _].
  split; [exact Hok|].
  run_check_migrate (hot_and_cold PrefillConstrained).1
    (hot_and_cold PrefillConstrained).2.
  split; [vm_compute; reflexivity|]. split; [apply list_elem_of_here|].
  eapply (check_migrate_destination (hot_and_cold PrefillConstrained).1
            (hot_and_cold PrefillConstrained).2);
    [exact Hok | vm_compute; reflexivity | apply list_elem_of_here].
Defined.

(** C10, witness: [new] has load minus infinity, and its projected load
    -0 exceeds the threshold -3; [balanced] returns no pair towards it. *)
Lemma balanced_gate_before_sentinel_witness :
  let w := (hot_and_new Balanced).1 in
  let gs := (hot_and_new Balanced).2 in
  registry_ok w
  /\ policy_class (policy_of gs) = Balanced
  /\ 1%nat ∈ dict_values (registry w)
  /\ instance_id (deref w 1%nat) = "new"
  /\ (instance_load_migrate (deref w 1%nat) =? neg_infinity)%float = true
  /\ (policy_migrate_out_load_threshold (policy_of gs)
      <? load_after_migrate (policy_instance_load_calculator (policy_of gs))
           true (deref w 1%nat))%float = true
  /\ exists pairs w' gs',
       GS.check_migrate w gs = Ok (pairs, w', gs')
       /\ ("hot", "new") ∉ pairs.
Proof.
  pose proof (reachable_inv _ _ _ (hot_and_new_reachable Balanced)) as [Hok _].
  assert (Hx : 1%nat ∈ dict_values (registry (hot_and_new Balanced).1))
    by (vm_compute; apply list_elem_of_further, list_elem_of_here).
  split; [exact Hok|]. split; [reflexivity|]. split; [exact Hx|].
  split; [reflexivity|]. split; [reflexivity|]. split; [reflexivity|].
  run_check_migrate (hot_and_new Balanced).1 (hot_and_new Balanced).2.
  split; [vm_compute; reflexivity|].
  eapply (balanced_gate_before_sentinel (hot_and_new Balanced).1
            (hot_and_new Balanced).2 _ _ _ 1%nat "hot");
    [exact Hok | reflexivity | vm_compute; reflexivity | exact Hx | reflexivity].
Defined.

(** C4, counterexample: two heartbeat objects of instance [a] in one
    batch.  The first has a registered id, yet afterwards the entry of
    [a] is the second object (5 running requests), not the first (1). *)
Lemma first_of_two_heartbeats_overwritten :
  let w := two_heartbeats.1 in
  let gs := two_heartbeats.2 in
  let w' := GS.update_instance_infos [1%nat; 2%nat] w gs in
  reachable remaining_steps w gs
  /\ valid_ref w 1%nat
  /\ dict_contains (instance_id (deref w 1%nat)) (registry w) = true
  /\ dict_get (instance_id (deref w 1%nat)) (registry w') = Some 2%nat
  /\ num_running_request (deref w' 2%nat) = 5%Z
  /\ num_running_request
       (refresh_loads (instance_load_calculator gs) (deref w 1%nat)) = 1%Z
  /\ ~ (exists r, dict_get (instance_id (deref w 1%nat)) (registry w') = Some r
          /\ deref w' r
             = refresh_loads (instance_load_calculator gs) (deref w 1%nat)).
Proof.
  split; [apply two_heartbeats_reachable|].
  split; [vm_compute; lia|].
  split; [reflexivity|]. split; [reflexivity|].
  split; [reflexivity|]. split; [reflexivity|].
  intros (r & Hr & E). vm_compute in Hr. injection Hr as <-.
  apply (f_equal num_running_request) in E. vm_compute in E. discriminate.
Qed.

(** C4, witness: in that batch the second object is the one that the
    theorem speaks of. *)
Lemma update_instance_infos_entry_witness :
  let w := two_heartbeats.1 in
  let gs := two_heartbeats.2 in
  let w' := GS.update_instance_infos [1%nat; 2%nat] w gs in
  let calc := instance_load_calculator gs in
  valid_ref w 2%nat
  /\ dict_contains (instance_id (deref w 2%nat)) (registry w) = true
  /\ (2%nat ∉ [1%nat])
  /\ dict_keys (registry w') = dict_keys (registry w)
  /\ dict_get (instance_id (deref w 2%nat)) (registry w') = Some 2%nat
  /\ deref w' 2%nat = refresh_loads calc (deref w 2%nat).
Proof.
  assert (V : valid_ref two_heartbeats.1 2%nat) by (vm_compute; lia).
  assert (N : 2%nat ∉ [1%nat]).
  { intros H. apply list_elem_of_singleton in H. discriminate. }
  split; [exact V|]. split; [reflexivity|]. split; [exact N|].
  destruct (update_instance_infos_entry two_heartbeats.2 two_heartbeats.1
              [1%nat; 2%nat]) as [K H].
  split; [exact K|].
  destruct (H [1%nat] 2%nat [] eq_refl V eq_refl N) as (G & D & _).
  - intros j Hj. by apply elem_of_nil in Hj.
  - split; [exact G | exact D].
Defined.

(** C5, witness: the fleet of [hot] and [cold]. *)
Lemma registry_counts_agree_witness :
  let w := (hot_and_cold Balanced).1 in
  let gs := (hot_and_cold Balanced).2 in
  reachable remaining_steps w gs
  /\ num_instance gs = 2%nat
  /\ num_instance gs = size (instance_id_set gs)
  /\ size (instance_id_set gs) = length (deref_dict w (instance_info gs))
  /\ instance_id_set gs
     = list_to_set (dict_keys (deref_dict w (instance_info gs))).
Proof.
  split; [apply hot_and_cold_reachable|]. split; [reflexivity|].
  apply (registry_counts_agree remaining_steps).
  apply hot_and_cold_reachable.
Defined.

(** C6, counterexample: with [enable_prefill_migrate] false, a name that
    is not registered is accepted. *)
Lemma unknown_policy_name_accepted :
  ("no_such_policy"
   ∉ ["balanced"; "prefill_constrained"; "prefill_relaxed"])
  /\ exists ms,
       MS.init "no_such_policy" (-3)%float (calculator false) = Ok ms.
Proof.
  split.
  - intros H.
    repeat (apply elem_of_cons in H as [H|H]; [discriminate|]).
    by apply elem_of_nil in H.
  - eexists. reflexivity.
Qed.

(** C6, witness: the same name with [enable_prefill_migrate] true. *)
Lemma unknown_policy_name_witness :
  ("no_such_policy"
   ∉ ["balanced"; "prefill_constrained"; "prefill_relaxed"])
  /\ MS.init "no_such_policy" (-3)%float
       (mkCalculator "remaining_steps" true
          (remaining_steps "remaining_steps" true))
     = Raise (KeyError "no_such_policy").
Proof.
  assert (N : "no_such_policy"
              ∉ ["balanced"; "prefill_constrained"; "prefill_relaxed"]).
  { intros H.
    repeat (apply elem_of_cons in H as [H|H]; [discriminate|]).
    by apply elem_of_nil in H. }
  split; [exact N|].
  apply (unknown_policy_name "no_such_policy" (-3)%float "remaining_steps"
           (remaining_steps "remaining_steps" true) N).
Defined.

(** C7, counterexample: [a] is registered; [scale_up(['a'])] changes
    nothing and [scale_down(['a'])] then removes the instance. *)
Lemma scale_up_known_then_scale_down :
  let w := (fresh_instance Balanced).1 in
  let gs := (fresh_instance Balanced).2 in
  reachable remaining_steps w gs
  /\ registry w = [("a", 0%nat)]
  /\ exists w2 gs2,
       GS.scale_down (Str "a") (GS.scale_up (Str "a") w gs).1
         (GS.scale_up (Str "a") w gs).2 = Ok (w2, gs2)
       /\ registry w2 = []
       /\ num_instance gs = 1%nat /\ num_instance gs2 = 0%nat
       /\ registry w2 <> registry w.
Proof.
  split; [apply fresh_instance_reachable|]. split; [reflexivity|].
  lazymatch eval vm_compute in
    (GS.scale_down (Str "a")
       (GS.scale_up (Str "a") (fresh_instance Balanced).1
          (fresh_instance Balanced).2).1
       (GS.scale_up (Str "a") (fresh_instance Balanced).1
          (fresh_instance Balanced).2).2) with
  | Ok (?w2, ?gs2) => exists w2, gs2
  end.
  split; [vm_compute; reflexivity|]. split; [reflexivity|].
  split; [reflexivity|]. split; [reflexivity|]. discriminate.
Qed.

(** C7, witness: scaling a new scheduler up by [a] and down again. *)
Lemma scale_up_then_scale_down_witness :
  let gs := scheduler_of Balanced in
  GS_inv empty_store gs
  /\ dict_contains "a" (registry empty_store) = false
  /\ exists w2 gs2,
       GS.scale_down (Str "a") (GS.scale_up (Str "a") empty_store gs).1
         (GS.scale_up (Str "a") empty_store gs).2 = Ok (w2, gs2)
       /\ registry w2 = registry empty_store
       /\ instance_id_set gs2 = instance_id_set gs
       /\ num_instance gs2 = num_instance gs.
Proof.
  pose proof (reachable_inv _ _ _ (scheduler_of_reachable Balanced)) as Inv.
  split; [exact Inv|]. split; [reflexivity|].
  exact (scale_up_then_scale_down empty_store (scheduler_of Balanced) "a"
           Inv eq_refl).
Defined.

Lemma four_heartbeats_reachable cls :
  let st := GS.scale_up (Iter ["hot"; "warm"; "cool"; "cold"]) empty_store
              (scheduler_of cls) in
  let h := alloc (heartbeat "hot" 10 0 10 2) st.1 in
  let m := alloc (heartbeat "warm" 10 0 20 2) h.2 in
  let c := alloc (heartbeat "cool" 2 0 20 2) m.2 in
  let d := alloc (heartbeat "cold" 2 0 80 2) c.2 in
  reachable remaining_steps
    (GS.update_instance_infos [h.1; m.1; c.1; d.1] d.2 st.2) st.2.
Proof.
  intros st h m c d.
  apply reach_update_instance_infos.
  - do 4 apply reach_heartbeat_object.
    eapply reach_scale_up; [apply scheduler_of_reachable|].
    apply surjective_pairing.
  - destruct cls; vm_compute; repeat constructor.
Qed.

Lemma four_instances_reachable cls :
  reachable remaining_steps (four_instances cls).1 (four_instances cls).2.
Proof.
  pose proof (four_heartbeats_reachable cls) as R. cbv zeta in R.
  match type of R with
  | reachable _ ?w ?gs =>
      assert (E1 : (four_instances cls).1 = w)
        by (destruct cls; vm_compute; reflexivity);
      assert (E2 : (four_instances cls).2 = gs)
        by (destruct cls; vm_compute; reflexivity)
  end.
  rewrite E1, E2. exact R.
Qed.

Lemma unknown_heartbeat_reachable :
  reachable remaining_steps unknown_heartbeat.1 unknown_heartbeat.2.
Proof.
  unfold unknown_heartbeat. cbn zeta. cbn [fst snd].
  apply reach_heartbeat_object.
  eapply reach_scale_up; [apply scheduler_of_reachable|].
  apply surjective_pairing.
Qed.

(** X1, witness: both ids of the pair of [hot] and [cold] are
    registered. *)
Lemma check_migrate_pairs_registered_witness :
  let w := (hot_and_cold Balanced).1 in
  let gs := (hot_and_cold Balanced).2 in
  GS_inv w gs
  /\ exists pairs w' gs',
       GS.check_migrate w gs = Ok (pairs, w', gs')
       /\ ("hot", "cold") ∈ pairs
       /\ "hot" ∈ dict_keys (registry w) /\ "cold" ∈ dict_keys (registry w)
       /\ "hot" ∈ instance_id_set gs /\ "cold" ∈ instance_id_set gs.
Proof.
  pose proof (reachable_inv _ _ _ (hot_and_cold_reachable Balanced)) as Inv.
  split; [exact Inv|].
  run_check_migrate (hot_and_cold Balanced).1 (hot_and_cold Balanced).2.
  split; [vm_compute; reflexivity|]. split; [apply list_elem_of_here|].
  eapply (check_migrate_pairs_registered (hot_and_cold Balanced).1
            (hot_and_cold Balanced).2);
    [exact Inv | vm_compute; reflexivity | apply list_elem_of_here].
Defined.

(** X2, witness: the source [hot] has a load above the threshold. *)
Lemma check_migrate_source_witness :
  let w := (hot_and_cold PrefillConstrained).1 in
  let gs := (hot_and_cold PrefillConstrained).2 in
  registry_ok w
  /\ policy_class (policy_of gs) <> PrefillRelaxed
  /\ exists pairs w' gs',
       GS.check_migrate w gs = Ok (pairs, w', gs')
       /\ ("hot", "cold") ∈ pairs
       /\ exists r, dict_get "hot" (registry w) = Some r
            /\ ((0 < num_killed_request (deref w r))%Z
                \/ (policy_migrate_out_load_threshold (policy_of gs)
                    <? instance_load_migrate (deref w r))%float = true).
Proof.
  pose proof (reachable_inv _ _ _ (hot_and_cold_reachable PrefillConstrained))
    as [Hok _].
  split; [exact Hok|]. split; [discriminate|].
  run_check_migrate (hot_and_cold PrefillConstrained).1
    (hot_and_cold PrefillConstrained).2.
  split; [vm_compute; reflexivity|]. split; [apply list_elem_of_here|].
  eapply (check_migrate_source (hot_and_cold PrefillConstrained).1
            (hot_and_cold PrefillConstrained).2);
    [exact Hok | discriminate | vm_compute; reflexivity
     | apply list_elem_of_here].
Defined.

(** X3, witness: the two pairs of the fleet of four share no instance on
    either side. *)
Lemma check_migrate_once_per_side_witness :
  let w := (four_instances PrefillConstrained).1 in
  let gs := (four_instances PrefillConstrained).2 in
  registry_ok w
  /\ exists pairs w' gs',
       GS.check_migrate w gs = Ok (pairs, w', gs')
       /\ pairs = [("hot", "cold"); ("warm", "cool")]
       /\ NoDup pairs.*1 /\ NoDup pairs.*2.
Proof.
  pose proof (reachable_inv _ _ _ (four_instances_reachable PrefillConstrained))
    as [Hok _].
  split; [exact Hok|].
  run_check_migrate (four_instances PrefillConstrained).1
    (four_instances PrefillConstrained).2.
  split; [vm_compute; reflexivity|]. split; [reflexivity|].
  eapply (check_migrate_once_per_side (four_instances PrefillConstrained).1
            (four_instances PrefillConstrained).2);
    [exact Hok | vm_compute; reflexivity].
Defined.

(** X4, witness: two pairs for four instances. *)
Lemma check_migrate_pairs_bound_witness :
  let w := (four_instances Balanced).1 in
  let gs := (four_instances Balanced).2 in
  GS_inv w gs
  /\ exists pairs w' gs',
       GS.check_migrate w gs = Ok (pairs, w', gs')
       /\ length pairs = 2 /\ num_instance gs = 4
       /\ length pairs <= num_instance gs
       /\ (policy_class (policy_of gs) <> PrefillRelaxed ->
           2 * length pairs <= num_instance gs).
Proof.
  pose proof (reachable_inv _ _ _ (four_instances_reachable Balanced)) as Inv.
  split; [exact Inv|].
  run_check_migrate (four_instances Balanced).1 (four_instances Balanced).2.
  split; [vm_compute; reflexivity|]. split; [reflexivity|].
  split; [vm_compute; reflexivity|].
  eapply (check_migrate_pairs_bound (four_instances Balanced).1
            (four_instances Balanced).2);
    [exact Inv | vm_compute; reflexivity].
Defined.

(** X5, witness: on [hot] and [new], [Balanced] returns no pair and
    [PrefillConstrained] returns one. *)
Lemma balanced_within_constrained_witness :
  let w := (hot_and_new Balanced).1 in
  let l := sorted_registry w in
  let calc := calculator true in
  Forall (valid_ref w) l
  /\ (Balanced_check_migrate (mkPolicy Balanced (-3)%float calc) l w).1 = []
  /\ (PrefillConstrained_check_migrate
        (mkPolicy PrefillConstrained (-3)%float calc) l w).1
     = [("hot", "new")]
  /\ (Balanced_check_migrate (mkPolicy Balanced (-3)%float calc) l w).1
     `sublist_of`
     (PrefillConstrained_check_migrate
        (mkPolicy PrefillConstrained (-3)%float calc) l w).1.
Proof.
  assert (V : Forall (valid_ref (hot_and_new Balanced).1)
                (sorted_registry (hot_and_new Balanced).1))
    by (vm_compute; repeat constructor).
  split; [exact V|]. split; [reflexivity|]. split; [reflexivity|].
  exact (balanced_within_constrained (-3)%float (calculator true)
           (calculator true) _ _ V).
Defined.

(** X6, witness: a second [check_migrate] on [hot] and [cold] returns the
    same pair. *)
Lemma check_migrate_twice_witness :
  let w := (hot_and_cold Balanced).1 in
  let gs := (hot_and_cold Balanced).2 in
  registry_ok w
  /\ exists pairs w1 gs1,
       GS.check_migrate w gs = Ok (pairs, w1, gs1)
       /\ pairs = [("hot", "cold")]
       /\ w1 <> w
       /\ exists w2 gs2, GS.check_migrate w1 gs1 = Ok (pairs, w2, gs2).
Proof.
  pose proof (reachable_inv _ _ _ (hot_and_cold_reachable Balanced)) as [Hok _].
  split; [exact Hok|].
  run_check_migrate (hot_and_cold Balanced).1 (hot_and_cold Balanced).2.
  split; [vm_compute; reflexivity|]. split; [reflexivity|].
  split.
  - intros E. apply (f_equal (fun w => length (objects w))) in E.
    vm_compute in E. discriminate.
  - eapply (check_migrate_twice (hot_and_cold Balanced).1
              (hot_and_cold Balanced).2);
      [exact Hok | vm_compute; reflexivity].
Defined.

(** X7, witness: the heartbeat object of [ghost], in a batch, stays as
    it is and outside the registry. *)
Lemma update_ignores_unregistered_witness :
  let w := unknown_heartbeat.1 in
  let gs := unknown_heartbeat.2 in
  let w' := GS.update_instance_infos [1%nat] w gs in
  instance_id (deref w 1%nat) = "ghost"
  /\ dict_contains (instance_id (deref w 1%nat)) (registry w) = false
  /\ deref w' 1%nat = deref w 1%nat
  /\ (1%nat ∉ dict_values (registry w) -> 1%nat ∉ dict_values (registry w')).
Proof.
  split; [reflexivity|]. split; [reflexivity|].
  exact (update_ignores_unregistered unknown_heartbeat.2 [1%nat]
           unknown_heartbeat.1 1%nat eq_refl).
Defined.

(** X8, witness: the registry of [hot] and [cold]. *)
Lemma registry_entries_carry_key_witness :
  let w := (hot_and_cold Balanced).1 in
  let gs := (hot_and_cold Balanced).2 in
  reachable remaining_steps w gs
  /\ dict_get "cold" (deref_dict w (instance_info gs)) = Some 3%nat
  /\ (forall k r, dict_get k (deref_dict w (instance_info gs)) = Some r ->
        valid_ref w r /\ instance_id (deref w r) = k)
  /\ NoDup (dict_values (deref_dict w (instance_info gs))).
Proof.
  split; [apply hot_and_cold_reachable|]. split; [reflexivity|].
  apply (registry_entries_carry_key remaining_steps).
  apply hot_and_cold_reachable.
Defined.

(** X10, witness: a new scheduler scaled up by [a] and [b]. *)
Lemma scale_up_registers_witness :
  let gs := scheduler_of Balanced in
  let w' := (GS.scale_up (Iter ["a"; "b"]) empty_store gs).1 in
  let gs' := (GS.scale_up (Iter ["a"; "b"]) empty_store gs).2 in
  GS_inv empty_store gs
  /\ dict_keys (registry w') = ["a"; "b"]
  /\ instance_id_set gs' = instance_id_set gs ∪ list_to_set ["a"; "b"]
  /\ num_instance gs' = size (instance_id_set gs').
Proof.
  pose proof (reachable_inv _ _ _ (scheduler_of_reachable Balanced)) as Inv.
  split; [exact Inv|]. split; [reflexivity|].
  destruct (scale_up_registers (Iter ["a"; "b"]) empty_store
              (scheduler_of Balanced)) as (_ & _ & _ & H).
  exact (H Inv).
Defined.

(** X11, witness: [scale_down] of [hot] and of an unknown id leaves
    [cold]. *)
Lemma scale_down_removes_witness :
  let w := (hot_and_cold Balanced).1 in
  let gs := (hot_and_cold Balanced).2 in
  let ids := Iter ["hot"; "ghost"] in
  GS_inv w gs
  /\ exists w' gs',
       GS.scale_down ids w gs = Ok (w', gs')
       /\ registry w'
          = filter (fun kr => kr.1 ∉ GS.instance_ids_of ids) (registry w)
       /\ objects w' = objects w
       /\ instance_id_set gs'
          = instance_id_set gs ∖ list_to_set (GS.instance_ids_of ids)
       /\ num_instance gs' = size (instance_id_set gs').
Proof.
  pose proof (reachable_inv _ _ _ (hot_and_cold_reachable Balanced)) as Inv.
  split; [exact Inv|].
  exact (scale_down_removes (Iter ["hot"; "ghost"]) _ _ Inv).
Defined.

(** X12, witness: [scale_down('b')] where only [a] is registered. *)
Lemma scale_down_unknown_ids_witness :
  let w := (fresh_instance Balanced).1 in
  let gs := (fresh_instance Balanced).2 in
  (forall k, k ∈ GS.instance_ids_of (Str "b") -> k ∉ dict_keys (registry w))
  /\ GS.scale_down (Str "b") w gs = Ok (w, gs).
Proof.
  assert (H : forall k, k ∈ GS.instance_ids_of (Str "b") ->
                k ∉ dict_keys (registry (fresh_instance Balanced).1)).
  { intros k Hk. apply list_elem_of_singleton in Hk as ->.
    intros Hb. vm_compute in Hb. apply list_elem_of_singleton in Hb.
    discriminate. }
  split; [exact H|].
  exact (scale_down_unknown_ids (Str "b") _ _ H).
Defined.

(** X13, witness: the fleet of four. *)
Lemma migration_scheduler_mirror_witness :
  let w := (four_instances Balanced).1 in
  let gs := (four_instances Balanced).2 in
  reachable remaining_steps w gs
  /\ ms_num_instance (migrate_scheduler gs) = 4
  /\ ms_instance_id_set (migrate_scheduler gs) = instance_id_set gs
  /\ ms_num_instance (migrate_scheduler gs) = num_instance gs.
Proof.
  split; [apply four_instances_reachable|].
  split; [vm_compute; reflexivity|].
  apply (migration_scheduler_mirror remaining_steps
           (four_instances Balanced).1 (four_instances Balanced).2).
  apply four_instances_reachable.
Defined.

(** X20, witness: in the fleet of four the first pair has the colder
    destination and the hotter source. *)
Lemma check_migrate_in_load_order_witness :
  let w := (four_instances PrefillConstrained).1 in
  let gs := (four_instances PrefillConstrained).2 in
  registry_ok w
  /\ (forall r, r ∈ dict_values (registry w) ->
        ~ is_nan (instance_load_migrate (deref w r)))
  /\ exists pairs w' gs',
       GS.check_migrate w gs = Ok (pairs, w', gs')
       /\ pairs !! 0%nat = Some ("hot", "cold")
       /\ pairs !! 1%nat = Some ("warm", "cool")
       /\ exists rs1 rd1 rs2 rd2,
            dict_get "hot" (registry w) = Some rs1
            /\ dict_get "cold" (registry w) = Some rd1
            /\ dict_get "warm" (registry w) = Some rs2
            /\ dict_get "cool" (registry w) = Some rd2
            /\ load_le w rd1 rd2 /\ load_le w rs2 rs1.
Proof.
  pose proof (reachable_inv _ _ _ (four_instances_reachable PrefillConstrained))
    as [Hok _].
  assert (N : forall r,
             r ∈ dict_values (registry (four_instances PrefillConstrained).1) ->
             ~ is_nan (instance_load_migrate
                         (deref (four_instances PrefillConstrained).1 r))).
  { intros r Hr. vm_compute in Hr.
    repeat (apply elem_of_cons in Hr as [->|Hr]; [vm_compute; discriminate|]).
    apply elem_of_nil in Hr. destruct Hr. }
  split; [exact Hok|]. split; [exact N|].
  run_check_migrate (four_instances PrefillConstrained).1
    (four_instances PrefillConstrained).2.
  split; [vm_compute; reflexivity|]. split; [reflexivity|].
  split; [reflexivity|].
  eapply (check_migrate_in_load_order (four_instances PrefillConstrained).1
            (four_instances PrefillConstrained).2 _ _ _ 0%nat 1%nat);
    [exact Hok | exact N | vm_compute; reflexivity | lia
     | reflexivity | reflexivity].
Defined.

(** X21, witness: a [MigrationScheduler] with instance [a] added and no
    snapshot. *)
Lemma check_migrate_needs_update_witness :
  exists ms,
    MS.init "balanced" (-3)%float (calculator true) = Ok ms
    /\ MS.check_migrate empty_store (MS.add_instance "a" ms)
       = Raise (AttributeError "values")
    /\ is_ok (MS.check_migrate empty_store
                (MS.update_instance_infos RegistryRef
                   (MS.add_instance "a" ms))).
Proof.
  eexists. split; [reflexivity|].
  destruct (check_migrate_needs_update (DS := Mirror) (SS := Mirror)
              "balanced" (-3)%float (calculator true) _ ["a"] empty_store
              eq_refl) as (R & U & _).
  split; [exact R | exact (U RegistryRef)].
Defined.

(** X14, witness: a manager that answers at the third call. *)
Lemma retry_returns_first_answer_witness :
  2 < MAX_TASK_RETRIES
  /\ (forall i, i < 2 -> answers_third_call i = RaisesRayActorError)
  /\ answers_third_call 2 <> RaisesRayActorError
  /\ retry_manager_method_sync answers_third_call
     = (Returned 7%Z, unavailable 0 2 ++ [RayCall 2]).
Proof.
  assert (L : 2 < MAX_TASK_RETRIES) by (unfold MAX_TASK_RETRIES; lia).
  assert (F : forall i, i < 2 -> answers_third_call i = RaisesRayActorError).
  { intros [|[|i]] Hi; [reflexivity | reflexivity | lia]. }
  assert (A : answers_third_call 2 <> RaisesRayActorError (A := Z))
    by discriminate.
  split; [exact L|]. split; [exact F|]. split; [exact A|].
  exact (retry_returns_first_answer answers_third_call 2 L F A).
Defined.

(** X15, witness: a manager that never answers. *)
Lemma retry_gives_up_witness :
  (forall i, i < MAX_TASK_RETRIES -> never_answers i = RaisesRayActorError)
  /\ (retry_manager_method_sync never_answers).1 = Raised RayActorError
  /\ length (List.filter is_ray_call (retry_manager_method_sync never_answers).2)
     = MAX_TASK_RETRIES.
Proof.
  assert (F : forall i, i < MAX_TASK_RETRIES ->
                never_answers i = RaisesRayActorError) by reflexivity.
  split; [exact F|].
  rewrite (retry_gives_up never_answers F).
  split; reflexivity.
Defined.

(** X17, witness: the head node exits with status 1 when its
    [ray start --head] fails. *)
Lemma launch_exit_reasons_witness :
  (launch_ray_cluster head_node_port_taken 6379).1 = SysExit 1
  /\ ((exists e, run_ray_stop head_node_port_taken = RaisesCalledProcessError e)
      \/ HEAD_NODE_IP head_node_port_taken = None
      \/ (HEAD_NODE head_node_port_taken = true
          /\ exists e, run_ray_start_head head_node_port_taken
                       = RaisesCalledProcessError e)).
Proof.
  split; [reflexivity|].
  exact (proj2 (launch_exit_reasons head_node_port_taken 6379 1 eq_refl)).
Defined.

(** X18, witness: a worker node while the head is down. *)
Lemma launch_worker_never_started_witness :
  (forall i, i < MAX_RESTARTS -> fails (run_ray_start_address
                                         (worker_node head_down) i))
  /\ launch_ray_cluster (worker_node head_down) 6379
     = (Raised (UnboundLocalError "result"),
        [Run hostname_i; Run ray_stop_force]
          ++ stalled "10.0.0.1" 6379 MAX_RESTARTS).
Proof.
  assert (F : forall i, i < MAX_RESTARTS ->
                fails (run_ray_start_address (worker_node head_down) i))
    by (intros i _; exact I).
  split; [exact F|].
  apply (launch_worker_never_started (worker_node head_down) 6379 "10.0.0.1");
    [reflexivity | reflexivity | by eexists | by eexists | exact F].
Defined.

(** X19, witness: a worker node whose third [ray start] succeeds. *)
Lemma launch_returns_after_start_witness :
  let env := worker_node head_up_at_third in
  (launch_ray_cluster env 6379).1 = Returned tt
  /\ exists ip t,
       HEAD_NODE_IP env = Some ip
       /\ (launch_ray_cluster env 6379).2 = t ++ [LogInfo; RayInit ip 6379]
       /\ ray_init_raises env = None
       /\ exists n out,
            n < MAX_RESTARTS
            /\ run_ray_start_address env n = Completed out
            /\ forall i, i < n -> fails (run_ray_start_address env i).
Proof.
  split; [reflexivity|].
  exact (launch_returns_after_start (worker_node head_up_at_third) 6379
           eq_refl).
Defined.
